(** * BOP 2024 pose evaluation script: timing validation, stage dispatch and
      mAP aggregation

    A shallow embedding of [scripts/eval_bop24_pose.py].  The script loads the
    estimates of a result file, validates and averages the per-image
    estimation times, runs the external error and score stages for the two
    configured error types, folds the per-threshold score files into one mAP
    per error type and writes the final scores.

    Numbers.  The script computes with NumPy doubles.  The model computes
    with the same numbers: IEEE 754 binary64 as the prover's library
    specifies it ([SpecFloat], precision 53, rounding to nearest with ties to
    even), so that a sum, a quotient or a comparison of the model is the one
    of the script bit for bit.  A dict is an association list in insertion
    order, which is the order Python iterates it in. *)

From Stdlib Require Import List String Ascii Bool Arith ZArith QArith Qabs Lia.
From Stdlib Require Import Permutation SpecFloat.
From Stdlib Require Import Decimal DecimalString DecimalPos DecimalN.
Import ListNotations.

Local Open Scope string_scope.
Local Open Scope list_scope.

(** ** NumPy scalars *)

Module NP.

(** A double. *)
Definition npfloat : Type := spec_float.

Definition prec : Z := 53.
Definition emax : Z := 1024.

Definition NaN : npfloat := S754_nan.

(** The double of an integer. *)
Definition of_Z (n : Z) : npfloat := binary_normalize prec emax n 0 false.

Definition add : npfloat -> npfloat -> npfloat := SFadd prec emax.
Definition sub : npfloat -> npfloat -> npfloat := SFsub prec emax.
Definition mul : npfloat -> npfloat -> npfloat := SFmul prec emax.
Definition div : npfloat -> npfloat -> npfloat := SFdiv prec emax.
Definition abs : npfloat -> npfloat := SFabs.

(** [x < y]; every comparison with NaN is false. *)
Definition ltb : npfloat -> npfloat -> bool := SFltb.

(** [x > y]. *)
Definition gtb (x y : npfloat) : bool := ltb y x.

(** [np.signbit] *)
Definition signbit (x : npfloat) : bool :=
  match x with
  | S754_zero s | S754_infinity s | S754_finite s _ _ => s
  | S754_nan => false
  end.

(** The double that a decimal literal such as [0.001] denotes: the one
    nearest to the fraction.  The quotient of two doubles is rounded once, so
    this is the literal whenever numerator and denominator are doubles
    themselves, that is below 2^53, as they are throughout. *)
Definition Num (q : Q) : npfloat := div (of_Z (Qnum q)) (of_Z (Zpos (Qden q))).

(** Division of a sum by the number of summands. *)
Definition div_count (x : npfloat) (n : nat) : npfloat :=
  div x (of_Z (Z.of_nat n)).

Definition minus_zero : npfloat := S754_zero true.

(** [np.add.reduce] of an array of doubles adds pairwise.  Up to 128 values
    are added in one block: fewer than eight from left to right, starting
    from -0.0; otherwise in eight running sums [r0 .. r7] over the full
    groups of eight, which are then added as a tree, and the values left
    over are added to that from left to right. *)
Fixpoint unrolled (r0 r1 r2 r3 r4 r5 r6 r7 : npfloat) (l : list npfloat)
  : npfloat :=
  match l with
  | a0 :: a1 :: a2 :: a3 :: a4 :: a5 :: a6 :: a7 :: rest =>
      unrolled (add r0 a0) (add r1 a1) (add r2 a2) (add r3 a3)
        (add r4 a4) (add r5 a5) (add r6 a6) (add r7 a7) rest
  | _ =>
      fold_left add l
        (add (add (add r0 r1) (add r2 r3)) (add (add r4 r5) (add r6 r7)))
  end.

Definition block_sum (l : list npfloat) : npfloat :=
  match l with
  | a0 :: a1 :: a2 :: a3 :: a4 :: a5 :: a6 :: a7 :: rest =>
      unrolled a0 a1 a2 a3 a4 a5 a6 a7 rest
  | _ => fold_left add l minus_zero
  end.

(** More than 128 values are split in two parts, the first of a length that
    is a multiple of eight, and the sums of the parts are added.  A list is
    split fewer times than it has elements, which is the fuel [sum] gives. *)
Fixpoint pairwise_sum (fuel : nat) (l : list npfloat) : npfloat :=
  let n := List.length l in
  match fuel with
  | S fuel' =>
      if (128 <? n)%nat then
        let n2 := (n / 2 - (n / 2) mod 8)%nat in
        add (pairwise_sum fuel' (firstn n2 l)) (pairwise_sum fuel' (skipn n2 l))
      else block_sum l
  | O => block_sum l
  end.

(** The reduction starts from the identity of the addition, 0.0. *)
Definition sum (l : list npfloat) : npfloat :=
  add (of_Z 0) (pairwise_sum (List.length l) l).

(** [np.mean] of a Python list of doubles: the sum divided by the length.
    For the empty list this is 0.0 / 0, which is nan. *)
Definition mean (l : list npfloat) : npfloat :=
  div_count (sum l) (List.length l).

(** The least integer that is not below [x], for a finite [x]. *)
Definition ceil (x : npfloat) : Z :=
  match x with
  | S754_finite s m e =>
      let v := cond_Zopp s (Zpos m) in
      if (0 <=? e)%Z then (v * 2 ^ e)%Z else (- ((- v) / 2 ^ (- e)))%Z
  | _ => 0%Z
  end.

(** [np.arange(start, stop, step)] for doubles.  NumPy takes
    [ceil((stop - start) / step)] values: [start], [start + step], and from
    the third on [start + i * delta] with [delta] the difference of the
    first two. *)
Definition arange (start stop step : npfloat) : list npfloat :=
  let n := Z.to_nat (ceil (div (sub stop start) step)) in
  let delta := sub (add start step) start in
  map (fun i => match i with
                | O => start
                | S O => add start step
                | _ => add start (mul (of_Z (Z.of_nat i)) delta)
                end)
    (seq 0 n).

(** Equal as doubles, the sign of a zero apart. *)
Definition eqv (x y : npfloat) : Prop :=
  match x, y with
  | S754_zero _, S754_zero _ => True
  | _, _ => x = y
  end.

End NP.

#[global] Arguments NP.Num : simpl never.
#[global] Arguments NP.of_Z : simpl never.
#[global] Arguments NP.add : simpl never.
#[global] Arguments NP.sub : simpl never.
#[global] Arguments NP.mul : simpl never.
#[global] Arguments NP.div : simpl never.
#[global] Arguments NP.abs : simpl never.
#[global] Arguments NP.ltb : simpl never.

Export NP (npfloat, Num, NaN).

Declare Scope np_scope.
Delimit Scope np_scope with np.
Infix "=~" := NP.eqv (at level 70, no associativity) : np_scope.

(** ** Python dicts with string keys, in insertion order *)

Module Dict.
Section WithValue.

Context {V : Type}.

Definition dict : Type := list (string * V).

Fixpoint get (k : string) (d : dict) : option V :=
  match d with
  | [] => None
  | (k', v) :: d' => if String.eqb k' k then Some v else get k d'
  end.

(** [k in d] *)
Definition mem (k : string) (d : dict) : bool :=
  match get k d with
  | Some _ => true
  | None => false
  end.

(** [d[k] = v]: an existing key keeps its place, a new one goes last. *)
Fixpoint set (k : string) (v : V) (d : dict) : dict :=
  match d with
  | [] => [(k, v)]
  | (k', v') :: d' =>
      if String.eqb k' k then (k, v) :: d' else (k', v') :: set k v d'
  end.

Definition keys (d : dict) : list string := map fst d.

Definition values (d : dict) : list V := map snd d.

End WithValue.
Arguments dict V : clear implicits.
End Dict.

(** ** Exceptions and results *)

Inductive exn : Type :=
| TimingValueError (scene_id im_id : Z)
    (* ValueError: "The running time for scene {} and image {} is not the
       same for all estimates." *)
| RuntimeError (msg : string)
| AssertionError
| KeyError (key : string)
| IndexError
| FileNotFoundError (path : string)
| PoolValueError.
    (* ValueError of multiprocessing.Pool: fewer than one process *)

Inductive result (A : Type) : Type :=
| Ok (a : A)
| Raise (e : exn).

Arguments Ok {A} a.
Arguments Raise {A} e.

(** ** Result keys: ["{:06d}_{:06d}".format(scene_id, im_id)] *)

Module Format.

Fixpoint zeros (n : nat) : string :=
  match n with
  | O => EmptyString
  | S n' => String "0" (zeros n')
  end.

(** Left padding with zeros up to [width] characters. *)
Definition zfill (width : nat) (s : string) : string :=
  zeros (width - String.length s) ++ s.

(** The format spec [06d]: sign-aware zero padding to six characters. *)
Definition format_06d (n : Z) : string :=
  match n with
  | Zneg p => String "-" (zfill 5 (NilEmpty.string_of_uint (Pos.to_uint p)))
  | _ => zfill 6 (NilEmpty.string_of_uint (N.to_uint (Z.to_N n)))
  end.

Definition result_key (scene_id im_id : Z) : string :=
  format_06d scene_id ++ "_" ++ format_06d im_id.

(** Reading a formatted integer back, to see that distinct images have
    distinct keys. *)
Definition value (s : string) : option N :=
  option_map N.of_uint (NilEmpty.uint_of_string s).

Definition parse (s : string) : option Z :=
  match s with
  | String a r =>
      if Ascii.eqb a "-" then option_map (fun n => Z.opp (Z.of_N n)) (value r)
      else option_map Z.of_N (value s)
  | EmptyString => None
  end.

(** [c in s] *)
Fixpoint contains (c : ascii) (s : string) : bool :=
  match s with
  | EmptyString => false
  | String a r => Ascii.eqb a c || contains c r
  end.

End Format.

(** ** Estimates and timing validation (lines 107-131) *)

(** The fields of an estimate this script reads. *)
Record estimate : Type := mkEstimate {
  scene_id : Z;
  im_id : Z;
  time : npfloat
}.

Definition est_key (est : estimate) : string :=
  Format.result_key (scene_id est) (im_id est).

(** [abs(recorded - t) > 0.001] *)
Definition time_differs (recorded t : npfloat) : bool :=
  NP.gtb (NP.abs (NP.sub recorded t)) (Num (1 # 1000)).

(** The loop over [ests]; the result is [(times_available, times)]. *)
Fixpoint times_loop (ests : list estimate) (times : Dict.dict npfloat)
  : result (bool * Dict.dict npfloat) :=
  match ests with
  | [] => Ok (true, times)
  | est :: rest =>
      let result_key := est_key est in
      if NP.ltb (time est) (Num 0) then
        Ok (false, times)
      else
        match Dict.get result_key times with
        | Some recorded =>
            if time_differs recorded (time est) then
              Raise (TimingValueError (scene_id est) (im_id est))
            else times_loop rest times
        | None => times_loop rest (Dict.set result_key (time est) times)
        end
  end.

Definition unavailable : npfloat := Num (-1).

Definition average_time_per_image (ests : list estimate) : result npfloat :=
  match times_loop ests [] with
  | Raise e => Raise e
  | Ok (times_available, times) =>
      if times_available then Ok (NP.mean (Dict.values times))
      else Ok unavailable
  end.

(** *** What the validation is meant to compute *)

Definition negative_time (e : estimate) : bool := NP.ltb (time e) (Num 0).

(** Some estimate has [time < 0]. *)
Definition has_negative_time (ests : list estimate) : bool :=
  existsb negative_time ests.

(** The two estimates have the same [(scene_id, im_id)]. *)
Definition same_image (a b : estimate) : Prop :=
  scene_id a = scene_id b /\ im_id a = im_id b.

Definition same_imageb (a b : estimate) : bool :=
  (scene_id a =? scene_id b)%Z && (im_id a =? im_id b)%Z.

(** One time per image: the time of every estimate that is the first of its
    image, in the order of the estimates. *)
Fixpoint per_image_times_from (earlier ests : list estimate) : list npfloat :=
  match ests with
  | [] => []
  | e :: rest =>
      (if existsb (same_imageb e) earlier then [] else [time e])
      ++ per_image_times_from (earlier ++ [e]) rest
  end.

Definition per_image_times (ests : list estimate) : list npfloat :=
  per_image_times_from [] ests.

(** The two times differ by more than 1e-3 as the script measures it: the
    double [abs(a - b)] is greater than the double [0.001]. *)
Definition differ (a b : npfloat) : Prop :=
  NP.gtb (NP.abs (NP.sub a b)) (Num (1 # 1000)) = true.

(** The time of the first estimate of [l] whose key is [k]. *)
Fixpoint first_time (k : string) (l : list estimate) : option npfloat :=
  match l with
  | [] => None
  | e :: r => if String.eqb (est_key e) k then Some (time e) else first_time k r
  end.

(** The loop invariant: [times] holds, for every key, the time of the first
    estimate seen with it. *)
Definition represents (seen : list estimate) (times : Dict.dict npfloat) : Prop :=
  forall k, Dict.get k times = first_time k seen.

(** [e2] is checked against [e1], the first estimate of its image, no
    estimate up to [e2] lacks its time, and the two times differ by more
    than the tolerance. *)
Definition recorded_conflict (ests : list estimate) (e1 e2 : estimate) : Prop :=
  exists l1 l2 l3,
    ests = l1 ++ e1 :: l2 ++ e2 :: l3 /\
    has_negative_time (l1 ++ e1 :: l2 ++ [e2]) = false /\
    same_image e1 e2 /\
    (forall x, In x l1 -> ~ same_image x e2) /\
    differ (time e1) (time e2).

(** ** Score files and the per-error-type aggregation (lines 217-262) *)

(** What [inout.load_json] returns for a score file: the two mappings the
    script reads, keyed by object identifier. *)
Record score_file : Type := mkScoreFile {
  scores : Dict.dict npfloat;
  num_instances_per_object : Dict.dict Z
}.

(** [mAP_scores_per_object.setdefault(obj_id, []).append(score)] *)
Definition setdefault_append (obj_id : string) (score : npfloat)
    (d : Dict.dict (list npfloat)) : Dict.dict (list npfloat) :=
  match Dict.get obj_id d with
  | Some l => Dict.set obj_id (l ++ [score]) d
  | None => Dict.set obj_id [score] d
  end.

(** The loop [for obj_id in scores] of one threshold file.  [entries] are the
    items of [scores]: the key [obj_id] and the value [scores[obj_id]]. *)
Fixpoint scan_objects (entries : list (string * npfloat))
    (num_instances : Dict.dict Z)
    (mAP_scores_per_object : Dict.dict (list npfloat))
    (num_object_ids_ignored : list string)
  : result (Dict.dict (list npfloat) * list string) :=
  match entries with
  | [] => Ok (mAP_scores_per_object, num_object_ids_ignored)
  | (obj_id, score) :: rest =>
      match Dict.get obj_id num_instances with
      | None => Raise (KeyError obj_id)
      | Some n =>
          if (0 <? n)%Z then
            scan_objects rest num_instances
              (setdefault_append obj_id score mAP_scores_per_object)
              num_object_ids_ignored
          else
            scan_objects rest num_instances mAP_scores_per_object
              (num_object_ids_ignored ++ [obj_id])
      end
  end.

(** [obj_id in num_object_ids_ignored] *)
Definition is_ignored (obj_id : string) (ignored : list string) : bool :=
  existsb (String.eqb obj_id) ignored.

(** The loop over the object identifiers with the assertion (lines 252-261). *)
Fixpoint object_loop (entries : list (string * list npfloat))
    (num_object_ids_ignored : list string) (mAP_over_correct_ths : list npfloat)
  : result (list npfloat) :=
  match entries with
  | [] => Ok mAP_over_correct_ths
  | (obj_id, obj_scores) :: rest =>
      if is_ignored obj_id num_object_ids_ignored then Raise AssertionError
      else
        let mAP_over_correct_th := NP.mean obj_scores in
        object_loop rest num_object_ids_ignored
          (mAP_over_correct_ths ++ [mAP_over_correct_th])
  end.

(** The threshold loop over score files that are already loaded. *)
Fixpoint threshold_loop (files : list score_file)
    (mAP_scores_per_object : Dict.dict (list npfloat))
    (num_object_ids_ignored : list string)
  : result (Dict.dict (list npfloat) * list string) :=
  match files with
  | [] => Ok (mAP_scores_per_object, num_object_ids_ignored)
  | f :: rest =>
      match scan_objects (scores f) (num_instances_per_object f)
              mAP_scores_per_object num_object_ids_ignored with
      | Raise e => Raise e
      | Ok (d, ign) => threshold_loop rest d ign
      end
  end.

(** The mAP of one error type from its score files, one per threshold. *)
Definition mAP_of_files (files : list score_file) : result npfloat :=
  match threshold_loop files [] [] with
  | Raise e => Raise e
  | Ok (mAP_scores_per_object, num_object_ids_ignored) =>
      match object_loop mAP_scores_per_object num_object_ids_ignored [] with
      | Raise e => Raise e
      | Ok mAP_over_correct_ths => Ok (NP.mean mAP_over_correct_ths)
      end
  end.

(** *** What the aggregation is meant to compute *)

(** The instance count of [obj] in [num_instances] is positive. *)
Definition positive_count (num_instances : Dict.dict Z) (obj : string) : bool :=
  match Dict.get obj num_instances with
  | Some n => (0 <? n)%Z
  | None => false
  end.

(** The entry of [scores f] belongs to an object with instances in [f]. *)
Definition counted (f : score_file) (entry : string * npfloat) : bool :=
  positive_count (num_instances_per_object f) (fst entry).

(** The scores that come from a threshold file with a positive instance
    count, in the order of the files and of their entries. *)
Definition positive_scores (files : list score_file) : list (string * npfloat) :=
  flat_map (fun f => filter (counted f) (scores f)) files.

(** The objects recorded as ignored, once per file that has no instance of
    them. *)
Definition ignored_objects (files : list score_file) : list string :=
  flat_map (fun f => map fst (filter (fun e => negb (counted f e)) (scores f)))
    files.

(** The scores of [obj] among [entries], in their order. *)
Definition scores_of_object (obj : string) (entries : list (string * npfloat))
  : list npfloat :=
  map snd (filter (fun e => String.eqb (fst e) obj) entries).

Definition mentions (l : list string) (x : string) : bool :=
  existsb (String.eqb x) l.

(** [l] without the repetitions of an element already met. *)
Fixpoint first_occurrences_from (earlier l : list string) : list string :=
  match l with
  | [] => []
  | x :: r =>
      (if mentions earlier x then [] else [x])
      ++ first_occurrences_from (earlier ++ [x]) r
  end.

Definition first_occurrences (l : list string) : list string :=
  first_occurrences_from [] l.

(** The objects with at least one score from a file with a positive count. *)
Definition averaged_objects (files : list score_file) : list string :=
  first_occurrences (map fst (positive_scores files)).

(** The mean over the averaged objects of the mean of their scores. *)
Definition mean_of_means (files : list score_file) : npfloat :=
  NP.mean
    (map (fun obj => NP.mean (scores_of_object obj (positive_scores files)))
       (averaged_objects files)).

(** Every object of [scores] has an instance count. *)
Definition well_formed (f : score_file) : Prop :=
  forall obj, In obj (Dict.keys (scores f)) ->
              Dict.get obj (num_instances_per_object f) <> None.

(** The dict the threshold loop builds from the entries [es]. *)
Definition grouping (es : list (string * npfloat)) : Dict.dict (list npfloat) :=
  map (fun obj => (obj, scores_of_object obj es)) (first_occurrences (map fst es)).

Definition add_entry (d : Dict.dict (list npfloat)) (e : string * npfloat) :=
  setdefault_append (fst e) (snd e) d.

(** The dict with the keys [ks] and the values [f k]. *)
Definition tabulate {V} (f : string -> V) (ks : list string) : Dict.dict V :=
  map (fun k => (k, f k)) ks.

(** ** The script's parameters *)

(** A threshold of correctness: a double of [np.arange(0.05, 0.51, 0.05)]
    or an integer of [np.arange(5, 51, 5)]. *)
Inductive number : Type :=
| Float (x : npfloat)
| Int (n : Z).

Record error_cfg : Type := mkError {
  n_top : Z;
  type : string;
  correct_th : list (list number)
}.

(** [np.arange(start, stop, step)] for integers. *)
Definition arange_int (start stop step : Z) : list Z :=
  map (fun i => (start + Z.of_nat i * step)%Z)
    (seq 0 (Z.to_nat ((stop - start + step - 1) / step))).

(** [np.arange(0.05, 0.51, 0.05)]: 0.05, 0.1, 0.15000000000000002, 0.2,
    0.25, 0.3, 0.35000000000000003, 0.4, 0.45, 0.5. *)
Definition mssd_thresholds : list npfloat :=
  Eval vm_compute in
    NP.arange (Num (5 # 100)) (Num (51 # 100)) (Num (5 # 100)).

(** [np.arange(5, 51, 5)]: 5, 10, ..., 50. *)
Definition mspd_thresholds : list Z :=
  Eval vm_compute in arange_int 5 51 5.

(** [p["errors"]], each threshold wrapped in a one-element list. *)
Definition mssd : error_cfg :=
  mkError 0 "mssd" (map (fun th => [Float th]) mssd_thresholds).

Definition mspd : error_cfg :=
  mkError 0 "mspd" (map (fun th => [Int th]) mspd_thresholds).

Definition errors : list error_cfg := [mssd; mspd].

(** The entries of [p] that the command line can overwrite and that the
    evaluation reads. *)
Record params : Type := mkParams {
  visib_gt_min : npfloat;
  renderer_type : string;
  results_path : string;
  eval_path : string;
  targets_filename : string;
  num_workers : Z;
  use_gpu : bool
}.

(** ** The world outside the script *)

(** A command line handed to [subprocess.call] or to the pool, by the
    arguments that vary between invocations. *)
Inductive command : Type :=
| CalcErrors (script result_filename error_type : string) (n_top : Z)
| CalcScores (error_dir_path error_type : string) (th : list number).

Inductive file : Type :=
| ResultsCsv (ests : list estimate)
| ScoresJson (content : score_file)
| FinalScoresJson (content : Dict.dict npfloat).

Definition filesystem : Type := Dict.dict file.

Inductive event : Type :=
| Started (c : command)
| Finished (c : command) (status : Z)
| LoadJson (path : string)
| SaveJson (path : string).

Record state : Type := mkState {
  fs : filesystem;
  trace : list event;
  (* the choices of the pool's scheduler still to come *)
  sched : list nat
}.

Definition M (A : Type) : Type := state -> result A * state.

Definition ret {A} (a : A) : M A := fun s => (Ok a, s).

Definition raise {A} (e : exn) : M A := fun s => (Raise e, s).

Definition bind {A B} (m : M A) (k : A -> M B) : M B :=
  fun s =>
    match m s with
    | (Ok a, s') => k a s'
    | (Raise e, s') => (Raise e, s')
    end.

Definition lift {A} (r : result A) : M A := fun s => (r, s).

Definition emit (evs : list event) : M unit :=
  fun s => (Ok tt, mkState (fs s) (trace s ++ evs) (sched s)).

Declare Scope m_scope.
Delimit Scope m_scope with M.
Notation "x <- m ;; k" := (bind m (fun x => k))
  (at level 100, m at next level, right associativity) : m_scope.
Notation "m ;;; k" := (bind m (fun _ => k))
  (at level 100, right associativity) : m_scope.
Local Open Scope m_scope.

(** [os.path.join] of relative parts. *)
Definition path_join (a b : string) : string := a ++ "/" ++ b.

(** [name.split(c)[1]] and [name.split(c)[0]] by their first separator. *)
Fixpoint after_sep (c : ascii) (s : string) : option string :=
  match s with
  | EmptyString => None
  | String a s' => if Ascii.eqb a c then Some s' else after_sep c s'
  end.

Fixpoint before_sep (c : ascii) (s : string) : string :=
  match s with
  | EmptyString => EmptyString
  | String a s' => if Ascii.eqb a c then EmptyString else String a (before_sep c s')
  end.

(** [str(result_name.split("_")[1].split("-")[0])] *)
Definition dataset_of (result_name : string) : result string :=
  match after_sep "_" result_name with
  | None => Raise IndexError
  | Some r => Ok (before_sep "-" (before_sep "_" r))
  end.

(** *** Shapes of a trace *)

(** Only commands of [cmds] start or finish in [evs]. *)
Definition stage_events (cmds : list command) (evs : list event) : Prop :=
  forall e, In e evs ->
    exists c, In c cmds /\ (e = Started c \/ exists st, e = Finished c st).

(** Every command of [cmds] has finished in [evs]. *)
Definition all_finished (cmds : list command) (evs : list event) : Prop :=
  forall c, In c cmds -> exists st, In (Finished c st) evs.

(** [evs] only loads files of [paths]. *)
Definition loads_from (paths : list string) (evs : list event) : Prop :=
  forall e, In e evs -> exists path, In path paths /\ e = LoadJson path.

Definition is_calc_errors (c : command) : bool :=
  match c with
  | CalcErrors _ _ _ _ => true
  | CalcScores _ _ _ => false
  end.

(** The helpers of [bop_toolkit_lib] and of the Python library that build
    names, and the external stages: what a command line does to the files and
    the status it ends with. *)
Record externals : Type := mkExternals {
  (* os.path.splitext(os.path.basename(result_filename))[0] *)
  result_name_of : string -> string;
  (* misc.get_eval_calc_errors_script_name(use_gpu, error_type, dataset) *)
  get_eval_calc_errors_script_name : bool -> string -> string -> string;
  (* misc.get_error_signature(error_type, n_top) *)
  get_error_signature : string -> Z -> string;
  (* misc.get_score_signature(correct_th, visib_gt_min) *)
  get_score_signature : list number -> npfloat -> string;
  run : command -> filesystem -> Z * filesystem
}.

Fixpoint remove_nth {A} (k : nat) (l : list A) : list A :=
  match l, k with
  | [], _ => []
  | _ :: t, O => t
  | h :: t, S k' => h :: remove_nth k' t
  end.

Definition errors_failed_msg : string := "Calculation of pose errors failed.".
Definition scores_failed_msg : string :=
  "Calculation of performance scores failed.".

Section Evaluation.

Variable X : externals.
Variable p : params.

(** *** Running the stages (lines 159-161 and 199-208) *)

(** [subprocess.call(cmd)]: the script blocks until the command ends. *)
Definition call (c : command) : M Z :=
  fun s =>
    let '(status, fs') := run X c (fs s) in
    (Ok status, mkState fs' (trace s ++ [Started c; Finished c status]) (sched s)).

(** The score stage with one worker (lines 199-203). *)
Fixpoint run_sequential (cmds : list command) : M unit :=
  match cmds with
  | [] => ret tt
  | c :: rest =>
      status <- call c ;;
      if (status =? 0)%Z then run_sequential rest
      else raise (RuntimeError scores_failed_msg)
  end.

(** The pool.  [map_async] hands the commands to the workers and its
    result object is dropped, so neither a status nor an exception of a
    task reaches the script; [close] and [join] return once every task has
    ended.  The scheduler picks, step by step, a pending command to start
    (while a worker is free) or a running one to finish. *)
Definition next_choice : M nat :=
  fun s =>
    match sched s with
    | [] => (Ok O, s)
    | c :: r => (Ok c, mkState (fs s) (trace s) r)
    end.

(** Modelled from the spec: [misc.run_command], the function the pool maps
    over the commands, is not part of this file.  A task runs its command to
    its end; what it returns or raises stays in the worker. *)
Definition finish (c : command) : M unit :=
  fun s =>
    let '(status, fs') := run X c (fs s) in
    (Ok tt, mkState fs' (trace s ++ [Finished c status]) (sched s)).

Fixpoint pool_steps (fuel workers : nat) (pending running : list command)
  : M unit :=
  match fuel with
  | O => ret tt
  | S fuel' =>
      let startable :=
        if (List.length running <? workers)%nat then pending else [] in
      let n := (List.length startable + List.length running)%nat in
      if (n =? 0)%nat then ret tt
      else
        c <- next_choice ;;
        let k := (c mod n)%nat in
        match nth_error startable k with
        | Some cmd =>
            emit [Started cmd] ;;;
            pool_steps fuel' workers (remove_nth k pending) (running ++ [cmd])
        | None =>
            let j := (k - List.length startable)%nat in
            match nth_error running j with
            | Some cmd =>
                finish cmd ;;;
                pool_steps fuel' workers pending (remove_nth j running)
            | None => ret tt
            end
        end
  end.

(** Lines 205-208.  [multiprocessing.Pool] refuses fewer than one process;
    two steps per command let every command start and finish. *)
Definition pool_map_async_join (cmds : list command) : M unit :=
  if (num_workers p <? 1)%Z then raise PoolValueError
  else pool_steps (2 * List.length cmds)%nat (Z.to_nat (num_workers p)) cmds [].

Definition run_score_stage (cmds : list command) : M unit :=
  if (num_workers p =? 1)%Z then run_sequential cmds
  else pool_map_async_join cmds.

(** *** Loading and saving *)

(** Modelled from the spec: [inout.load_json] is not part of this file.  It
    reads the file at [path]; a missing file is an error. *)
Definition load_json (path : string) : M file :=
  fun s =>
    let s' := mkState (fs s) (trace s ++ [LoadJson path]) (sched s) in
    match Dict.get path (fs s) with
    | Some f => (Ok f, s')
    | None => (Raise (FileNotFoundError path), s')
    end.

(** [inout.load_json(scores_path)["scores"]] *)
Definition load_scores (path : string) : M (Dict.dict npfloat) :=
  f <- load_json path ;;
  match f with
  | ScoresJson c => ret (scores c)
  | _ => raise (KeyError "scores")
  end.

(** [inout.load_json(scores_path)["num_instances_per_object"]] *)
Definition load_num_instances (path : string) : M (Dict.dict Z) :=
  f <- load_json path ;;
  match f with
  | ScoresJson c => ret (num_instances_per_object c)
  | _ => raise (KeyError "num_instances_per_object")
  end.

(** Modelled from the spec: [inout.load_bop_results] is not part of this
    file.  It reads a result file as the ordered sequence of its estimates. *)
Definition load_bop_results (path : string) : M (list estimate) :=
  fun s =>
    match Dict.get path (fs s) with
    | Some (ResultsCsv ests) => (Ok ests, s)
    | _ => (Raise (FileNotFoundError path), s)
    end.

(** Modelled from the spec: [inout.save_json] is not part of this file.  It
    writes the final scores as one file. *)
Definition save_json (path : string) (content : Dict.dict npfloat) : M unit :=
  fun s =>
    (Ok tt, mkState (Dict.set path (FinalScoresJson content) (fs s))
              (trace s ++ [SaveJson path]) (sched s)).

(** *** One error type (the body of the loop at line 136) *)

Definition calc_errors_cmd (result_filename dataset : string)
    (error : error_cfg) : command :=
  CalcErrors (get_eval_calc_errors_script_name X (use_gpu p) (type error) dataset)
    result_filename (type error) (n_top error).

Definition calc_scores_cmd (error_dir_path : string) (error : error_cfg)
    (th : list number) : command :=
  CalcScores error_dir_path (type error) th.

Definition scores_path (result_name error_sign : string) (th : list number)
  : string :=
  path_join (path_join (path_join (eval_path p) result_name) error_sign)
    ("scores_" ++ get_score_signature X th (visib_gt_min p) ++ ".json").

(** The threshold loop (lines 221-244), loading each file as it goes. *)
Fixpoint load_threshold_loop (result_name error_sign : string)
    (ths : list (list number))
    (mAP_scores_per_object : Dict.dict (list npfloat))
    (num_object_ids_ignored : list string)
  : M (Dict.dict (list npfloat) * list string) :=
  match ths with
  | [] => ret (mAP_scores_per_object, num_object_ids_ignored)
  | th :: rest =>
      let path := scores_path result_name error_sign th in
      sc <- load_scores path ;;
      num <- load_num_instances path ;;
      r <- lift (scan_objects sc num mAP_scores_per_object
                   num_object_ids_ignored) ;;
      load_threshold_loop result_name error_sign rest (fst r) (snd r)
  end.

(** Lines 217-262. *)
Definition aggregate (result_name error_sign : string) (error : error_cfg)
  : M npfloat :=
  r <- load_threshold_loop result_name error_sign (correct_th error) [] [] ;;
  mAP_over_correct_ths <- lift (object_loop (fst r) (snd r) []) ;;
  ret (NP.mean mAP_over_correct_ths).

Definition evaluate_error (result_filename result_name dataset : string)
    (error : error_cfg) : M npfloat :=
  status <- call (calc_errors_cmd result_filename dataset error) ;;
  if negb (status =? 0)%Z then raise (RuntimeError errors_failed_msg)
  else
    let error_sign := get_error_signature X (type error) (n_top error) in
    let error_dir_path := path_join result_name error_sign in
    run_score_stage (map (calc_scores_cmd error_dir_path error) (correct_th error)) ;;;
    aggregate result_name error_sign error.

(** *** One result file (the body of the loop at line 93) *)

Fixpoint errors_loop (result_filename result_name dataset : string)
    (errs : list error_cfg) (mAP_per_error_type : Dict.dict npfloat)
  : M (Dict.dict npfloat) :=
  match errs with
  | [] => ret mAP_per_error_type
  | error :: rest =>
      m <- evaluate_error result_filename result_name dataset error ;;
      errors_loop result_filename result_name dataset rest
        (Dict.set (type error) m mAP_per_error_type)
  end.

(** [mAP_per_error_type[k]] *)
Definition lookup (k : string) (d : Dict.dict npfloat) : result npfloat :=
  match Dict.get k d with
  | Some v => Ok v
  | None => Raise (KeyError k)
  end.

Fixpoint per_type_scores (errs : list error_cfg)
    (mAP_per_error_type final_scores : Dict.dict npfloat)
  : result (Dict.dict npfloat) :=
  match errs with
  | [] => Ok final_scores
  | error :: rest =>
      match lookup (type error) mAP_per_error_type with
      | Raise e => Raise e
      | Ok m =>
          per_type_scores rest mAP_per_error_type
            (Dict.set ("bop24_mAP_" ++ type error) m final_scores)
      end
  end.

(** Lines 270-283. *)
Definition final_scores_of (mAP_per_error_type : Dict.dict npfloat)
    (average_time : npfloat) : result (Dict.dict npfloat) :=
  match per_type_scores errors mAP_per_error_type [] with
  | Raise e => Raise e
  | Ok final_scores =>
      match lookup "mssd" mAP_per_error_type,
            lookup "mspd" mAP_per_error_type with
      | Ok mssd, Ok mspd =>
          Ok (Dict.set "bop24_average_time_per_image" average_time
                (Dict.set "bop24_mAP" (NP.mean [mssd; mspd]) final_scores))
      | Raise e, _ => Raise e
      | _, Raise e => Raise e
      end
  end.

Definition final_scores_path (result_name : string) : string :=
  path_join (path_join (eval_path p) result_name) "scores_bop24.json".

Definition evaluate_result (result_filename : string)
  : M (Dict.dict npfloat) :=
  let result_name := result_name_of X result_filename in
  dataset <- lift (dataset_of result_name) ;;
  ests <- load_bop_results (path_join (results_path p) result_filename) ;;
  average_time <- lift (average_time_per_image ests) ;;
  mAP_per_error_type <-
    errors_loop result_filename result_name dataset errors [] ;;
  final_scores <- lift (final_scores_of mAP_per_error_type average_time) ;;
  save_json (final_scores_path result_name) final_scores ;;;
  ret final_scores.

(** The loop over [p["result_filenames"]]: an exception ends the script. *)
Fixpoint evaluate_all (result_filenames : list string) : M unit :=
  match result_filenames with
  | [] => ret tt
  | f :: rest => evaluate_result f ;;; evaluate_all rest
  end.

End Evaluation.

(** ** The trace of one error type *)

Section Segments.

Variable X : externals.
Variable p : params.

Definition error_sign_of (error : error_cfg) : string :=
  get_error_signature X (type error) (n_top error).

(** The score commands of one error type, one per threshold. *)
Definition score_cmds (result_name : string) (error : error_cfg)
  : list command :=
  map (calc_scores_cmd (path_join result_name (error_sign_of error)) error)
    (correct_th error).

(** The score files of one error type, one per threshold. *)
Definition score_paths (result_name : string) (error : error_cfg)
  : list string :=
  map (scores_path X p result_name (error_sign_of error)) (correct_th error).

(** What one pass of the loop over the error types leaves in the trace:
    the error stage, then the score stage, then the loads of the
    aggregation. *)
Definition segment (result_filename result_name dataset : string)
    (error : error_cfg) (r : result npfloat) (evs : list event) : Prop :=
  let ce := calc_errors_cmd X p result_filename dataset error in
  exists st stage agg,
    evs = Started ce :: Finished ce st :: stage ++ agg /\
    stage_events (score_cmds result_name error) stage /\
    loads_from (score_paths result_name error) agg /\
    (st <> 0%Z ->
     stage = [] /\ agg = [] /\ r = Raise (RuntimeError errors_failed_msg)) /\
    (agg <> [] -> all_finished (score_cmds result_name error) stage) /\
    (num_workers p = 1%Z ->
     forall pre c st' post,
       stage = pre ++ Finished c st' :: post -> st' <> 0%Z ->
       post = [] /\ agg = [] /\ r = Raise (RuntimeError scores_failed_msg)).

(** The score files of one error type as they are on disk. *)
Definition files_at (fsys : filesystem) (result_name : string)
    (error : error_cfg) (files : list score_file) : Prop :=
  Forall2 (fun path f => Dict.get path fsys = Some (ScoresJson f))
    (score_paths result_name error) files.

End Segments.

(** ** A small world to run the script in *)

Module Demo.

Definition digits (n : Z) : string :=
  NilEmpty.string_of_uint (N.to_uint (Z.to_N n)).

Definition z_label (n : Z) : string :=
  (if (n <? 0)%Z then "m" else "") ++ digits (Z.abs n).

(** A double by its sign, its mantissa and its exponent. *)
Definition number_label (x : number) : string :=
  match x with
  | Int n => z_label n
  | Float (S754_finite s m e) =>
      (if s then "m" else "") ++ digits (Zpos m) ++ "e" ++ z_label e
  | Float (S754_zero s) => if s then "m0" else "0"
  | Float (S754_infinity s) => if s then "minf" else "inf"
  | Float S754_nan => "nan"
  end.

Definition score_signature (th : list number) (visib : npfloat) : string :=
  "th=" ++ String.concat "_" (map number_label th).

Definition error_signature (error_type : string) (n_top : Z) : string :=
  "error=" ++ error_type ++ "_ntop=" ++ digits n_top.

Definition p (workers : Z) : params :=
  mkParams (Num (1 # 10)) "vispy" "results" "eval" "test_targets_bop24.json"
    workers false.

(** Two objects, both with instances. *)
Definition content : score_file :=
  mkScoreFile [("1", Num (1 # 2)); ("2", Num 1)] [("1", 3%Z); ("2", 2%Z)].

(** Two objects, none with an instance. *)
Definition no_instances : score_file :=
  mkScoreFile [("1", Num 0); ("2", Num 0)] [("1", 0%Z); ("2", 0%Z)].

(** A failing command ends with status 1 and writes nothing; a score
    command that succeeds writes its score file. *)
Definition run (fails : command -> bool) (written : string -> score_file)
    (c : command) (fsys : filesystem) : Z * filesystem :=
  if fails c then (1%Z, fsys)
  else
    match c with
    | CalcErrors _ _ _ _ => (0%Z, fsys)
    | CalcScores dir error_type th =>
        (0%Z,
         Dict.set
           (path_join (path_join "eval" dir)
              ("scores_" ++ score_signature th (Num (1 # 10)) ++ ".json"))
           (ScoresJson (written error_type)) fsys)
    end.

Definition X (fails : command -> bool) (written : string -> score_file)
  : externals :=
  mkExternals (fun f => f) (fun _ _ _ => "eval_calc_errors.py")
    error_signature score_signature (run fails written).

Definition result_filename : string := "method_lmo-test".

Definition ests : list estimate :=
  [ mkEstimate 1 1 (Num (1 # 2)); mkEstimate 1 1 (Num (1 # 2));
    mkEstimate 1 2 (Num (3 # 10)) ].

Definition start : state :=
  mkState [("results/method_lmo-test", ResultsCsv ests)] [] [].

(** The same files, with choices for the scheduler of the pool. *)
Definition scheduled : state :=
  mkState (fs start) [] [3; 1; 4; 1; 5; 9; 2; 6; 5; 3; 5]%nat.

Definition nothing_fails (c : command) : bool := false.

Definition mspd_errors_fail (c : command) : bool :=
  match c with
  | CalcErrors _ _ error_type _ => String.eqb error_type "mspd"
  | CalcScores _ _ _ => false
  end.

Definition one_score_fails (c : command) : bool :=
  match c with
  | CalcErrors _ _ _ _ => false
  | CalcScores _ error_type th =>
      String.eqb error_type "mssd"
      && String.eqb (score_signature th (Num 0))
           (score_signature [Float (Num (1 # 10))] (Num 0))
  end.

Definition all_counted (error_type : string) : score_file := content.

Definition mssd_without_instances (error_type : string) : score_file :=
  if String.eqb error_type "mssd" then no_instances else content.

(** Every stage succeeds and every object has instances. *)
Definition good_world : externals := X nothing_fails all_counted.

(** The error stage of the second error type fails. *)
Definition late_failure_world : externals := X mspd_errors_fail all_counted.

(** One score command of the first error type fails. *)
Definition score_failure_world : externals := X one_score_fails all_counted.

(** The score files of the first error type count no instance. *)
Definition no_instances_world : externals :=
  X nothing_fails mssd_without_instances.

Definition sequential : params := p 1.
Definition pooled : params := p 2.

End Demo.

Module Examples.

(** Object A with three scores, object B with two. *)
Definition two_objects : list score_file :=
  [ mkScoreFile [("A", Num (2 # 10)); ("B", Num 1)] [("A", 5%Z); ("B", 2%Z)];
    mkScoreFile [("A", Num (4 # 10)); ("B", Num 1)] [("A", 5%Z); ("B", 2%Z)];
    mkScoreFile [("A", Num (6 # 10))] [("A", 5%Z)] ].

(** Object A without instances at one threshold and with four at another. *)
Definition mixed_counts : list score_file :=
  [ mkScoreFile [("A", Num (1 # 2))] [("A", 0%Z)];
    mkScoreFile [("A", Num (7 # 10))] [("A", 4%Z)] ].

(** Three estimates of one image; the second and the third are both within
    the tolerance of the first and further than it from each other. *)
Definition close_times : list estimate :=
  [ mkEstimate 1 1 (Num 1);
    mkEstimate 1 1 (Num (10009 # 10000));
    mkEstimate 1 1 (Num (9991 # 10000)) ].

Definition conflicting_times : list estimate :=
  [ mkEstimate 1 1 (Num 1); mkEstimate 1 1 (Num 2) ].

Definition mAP_07_05 : Dict.dict npfloat :=
  [("mssd", Num (70 # 100)); ("mspd", Num (50 # 100))].

(** The final scores of the run in which the score files of the first error
    type count no instance. *)
Definition nan_final : Dict.dict npfloat :=
  Eval vm_compute in
    match fst (evaluate_result Demo.no_instances_world Demo.sequential
                 Demo.result_filename Demo.start) with
    | Ok final => final
    | Raise _ => []
    end.

End Examples.

(** ** Command line arguments (lines 68-88) *)

(** [s.split(sep)] for a separator of one character. *)
Fixpoint split (sep : ascii) (s : string) : list string :=
  match s with
  | EmptyString => [EmptyString]
  | String a r =>
      if Ascii.eqb a sep then EmptyString :: split sep r
      else
        match split sep r with
        | [] => [String a EmptyString]
        | w :: ws => String a w :: ws
        end
  end.

(** The default of [--result_filenames]: [",".join(p["result_filenames"])]. *)
Definition result_filenames_arg (result_filenames : list string) : string :=
  String.concat "," result_filenames.

(** [p["result_filenames"] = args.result_filenames.split(",")] *)
Definition result_filenames_of (arg : string) : list string :=
  split "," arg.

(** [result_name.split("_")[1].split("-")[0]], written with [split]. *)
Definition dataset_by_split (result_name : string) : result string :=
  match split "_" result_name with
  | _ :: field :: _ =>
      match split "-" field with
      | dataset :: _ => Ok dataset
      | [] => Raise IndexError
      end
  | _ => Raise IndexError
  end.

(** ** Ranges of values and shapes of traces *)

(** A value that is not below zero: [x < 0] is false, as it is for NaN. *)
Definition not_below_zero (x : npfloat) : Prop :=
  NP.ltb x (Num 0) = false.

(** The two files have the same scores, and the same objects of them have
    instances. *)
Definition same_counted (f g : score_file) : Prop :=
  scores f = scores g /\
  forall obj, In obj (Dict.keys (scores f)) ->
    positive_count (num_instances_per_object f) obj
    = positive_count (num_instances_per_object g) obj.

(** The events of commands that run one after the other and end with
    status 0. *)
Definition ran (done : list command) : list event :=
  flat_map (fun c => [Started c; Finished c 0%Z]) done.

(** The events of reading each of [paths] twice, as the threshold loop
    does. *)
Definition loaded_twice (paths : list string) : list event :=
  flat_map (fun path => [LoadJson path; LoadJson path]) paths.


(** The commands started, and those finished, in [evs], in their order. *)
Definition started (evs : list event) : list command :=
  flat_map (fun e => match e with Started c => [c] | _ => [] end) evs.

Definition finished (evs : list event) : list command :=
  flat_map (fun e => match e with Finished c _ => [c] | _ => [] end) evs.

(** No command writes a file: the files after a command are those before
    it. *)
Definition writes_nothing (X : externals) : Prop :=
  forall c fsys, snd (run X c fsys) = fsys.

(** A world whose score files are already written and whose commands end
    with status 0 and write nothing. *)
Module Quiet.

Definition world : externals :=
  mkExternals (fun f => f) (fun _ _ _ => "eval_calc_errors.py")
    Demo.error_signature Demo.score_signature (fun c fsys => (0%Z, fsys)).

Definition prepared : state :=
  Eval vm_compute in
    mkState
      (fs (snd (evaluate_result Demo.good_world Demo.sequential
                  Demo.result_filename Demo.start))) [] [].

Definition final : Dict.dict npfloat :=
  Eval vm_compute in
    match fst (evaluate_result world Demo.sequential Demo.result_filename
                 prepared) with
    | Ok final_scores => final_scores
    | Raise _ => []
    end.

End Quiet.

(** * Doubles *)

Module NPFacts.
Import NP.

Lemma add_nan_l x : add NaN x = NaN.
Proof. reflexivity. Qed.

Lemma add_nan_r x : add x NaN = NaN.
Proof. destruct x; reflexivity. Qed.

Lemma div_nan_l x : div NaN x = NaN.
Proof. reflexivity. Qed.

Lemma fold_add_nan l : forall a,
  a = NaN \/ In NaN l -> fold_left add l a = NaN.
Proof.
  induction l as [|x l IH]; intros a [H|H]; simpl in *.
  - exact H.
  - destruct H.
  - apply IH. left. subst a. apply add_nan_l.
  - destruct H as [->|H]; apply IH; [left; apply add_nan_r|now right].
Qed.

Ltac nan_step :=
  repeat first [rewrite add_nan_l | rewrite add_nan_r]; auto 12.

Lemma tree_nan r0 r1 r2 r3 r4 r5 r6 r7 :
  In NaN [r0; r1; r2; r3; r4; r5; r6; r7] ->
  add (add (add r0 r1) (add r2 r3)) (add (add r4 r5) (add r6 r7)) = NaN.
Proof.
  simpl. intros H.
  repeat (destruct H as [->|H]; [nan_step|]). destruct H.
Qed.

Lemma unrolled_nan n : forall l r0 r1 r2 r3 r4 r5 r6 r7,
  (List.length l <= n)%nat ->
  In NaN [r0; r1; r2; r3; r4; r5; r6; r7] \/ In NaN l ->
  unrolled r0 r1 r2 r3 r4 r5 r6 r7 l = NaN.
Proof.
  induction n as [|n IH]; intros l r0 r1 r2 r3 r4 r5 r6 r7 L H.
  - destruct l; [|simpl in L; lia]. simpl. destruct H as [H|[]].
    now apply tree_nan.
  - destruct l as [|a0 [|a1 [|a2 [|a3 [|a4 [|a5 [|a6 [|a7 rest]]]]]]]];
      cbn [unrolled];
      try (apply fold_add_nan; destruct H as [H|H];
           [left; now apply tree_nan|now right]).
    apply IH; [simpl in L; lia|].
    destruct H as [H|H].
    + left. simpl in H |- *.
      repeat (destruct H as [->|H]; [nan_step|]). destruct H.
    + simpl in H.
      repeat (destruct H as [->|H]; [left; simpl; nan_step|]).
      now right.
Qed.

Lemma block_sum_nan l : In NaN l -> block_sum l = NaN.
Proof.
  intros H.
  destruct l as [|a0 [|a1 [|a2 [|a3 [|a4 [|a5 [|a6 [|a7 rest]]]]]]]];
    cbn [block_sum]; try (apply fold_add_nan; now right).
  apply (unrolled_nan (List.length rest)); [lia|].
  simpl in H |- *.
  repeat (destruct H as [->|H]; [left; auto 12|]). now right.
Qed.

Lemma pairwise_sum_nan fuel : forall l, In NaN l -> pairwise_sum fuel l = NaN.
Proof.
  induction fuel as [|fuel IH]; intros l H; cbn [pairwise_sum];
    [now apply block_sum_nan|].
  destruct (128 <? List.length l)%nat; [|now apply block_sum_nan].
  set (n2 := (List.length l / 2 - (List.length l / 2) mod 8)%nat).
  rewrite <- (firstn_skipn n2 l) in H. apply in_app_or in H as [H|H].
  - rewrite (IH _ H). apply add_nan_l.
  - rewrite (IH (skipn n2 l) H). apply add_nan_r.
Qed.

Lemma sum_nan l : In NaN l -> sum l = NaN.
Proof.
  intros H. unfold sum. rewrite (pairwise_sum_nan _ _ H). apply add_nan_r.
Qed.

Lemma mean_nan l : In NaN l -> mean l = NaN.
Proof. intros H. unfold mean, div_count. now rewrite (sum_nan _ H). Qed.

Lemma mean_nil : mean [] = NaN.
Proof. reflexivity. Qed.

(** Values that are not below zero. *)

Lemma ltb_zero x :
  ltb x (Num 0) = match x with
                  | S754_infinity true | S754_finite true _ _ => true
                  | _ => false
                  end.
Proof. destruct x as [s|[|]| |[|] m e]; reflexivity. Qed.

Lemma round_aux_sign s mx ex lx :
  signbit (binary_round_aux prec emax s mx ex lx) = s \/
  binary_round_aux prec emax s mx ex lx = NaN.
Proof.
  unfold binary_round_aux.
  destruct (shr_fexp prec emax mx ex lx) as [mrs' e'].
  destruct (shr_fexp prec emax _ e' loc_Exact) as [mrs'' e''].
  destruct (shr_m mrs''); [now left| |now right].
  destruct (Z.leb e'' (Z.sub emax prec)); now left.
Qed.

Lemma round_sign s m e :
  signbit (binary_round prec emax s m e) = s \/
  binary_round prec emax s m e = NaN.
Proof.
  unfold binary_round. destruct (shl_align _ _ _) as [mz ez].
  apply round_aux_sign.
Qed.

Lemma of_nat_signbit n : signbit (of_Z (Z.of_nat n)) = false.
Proof.
  unfold of_Z, binary_normalize. destruct (Z.of_nat n) eqn:E; [reflexivity| |lia].
  destruct (round_sign false p 0) as [H|H]; [exact H|]. now rewrite H.
Qed.

Lemma not_below_zero_signbit x :
  not_below_zero x <->
  signbit x = false \/ x = S754_zero true.
Proof.
  unfold not_below_zero. rewrite ltb_zero.
  destruct x as [[|]|[|]| |[|] m e]; simpl; split; intros H; auto;
    try discriminate; destruct H; discriminate.
Qed.

Lemma signbit_not_below_zero x : signbit x = false -> not_below_zero x.
Proof. intros H. apply not_below_zero_signbit. now left. Qed.

Lemma add_not_below_zero x y :
  not_below_zero x -> not_below_zero y -> not_below_zero (add x y).
Proof.
  intros Hx Hy. apply not_below_zero_signbit in Hx, Hy.
  destruct x as [sx|sx| |sx mx ex]; destruct Hx as [Hx|Hx];
    try discriminate; simpl in Hx; subst;
    destruct y as [sy|sy| |sy my ey]; destruct Hy as [Hy|Hy];
      try discriminate; simpl in Hy; subst; try reflexivity;
        try (injection Hx as ->); try (injection Hy as ->);
        try reflexivity.
  unfold add, SFadd.
  set (ez := Z.min ex ey).
  change (cond_Zopp false ?z) with z. cbn [Z.add binary_normalize].
  destruct (round_sign false
              (fst (shl_align mx ex ez) + fst (shl_align my ey ez)) ez) as [H|H].
  - now apply signbit_not_below_zero.
  - now rewrite H.
Qed.

Lemma div_not_below_zero x y :
  not_below_zero x -> signbit y = false -> not_below_zero (div x y).
Proof.
  intros Hx Hy. apply not_below_zero_signbit in Hx.
  destruct y as [sy|sy| |sy my ey]; simpl in Hy; subst;
    destruct x as [sx|sx| |sx mx ex]; destruct Hx as [Hx|Hx];
      try discriminate; simpl in Hx; subst; try reflexivity;
        try (injection Hx as ->; reflexivity).
  unfold div, SFdiv.
  destruct (SFdiv_core_binary prec emax (Zpos mx) ex (Zpos my) ey) as [[mz ez] lz].
  destruct (round_aux_sign (xorb false false) mz ez lz) as [H|H].
  - now apply signbit_not_below_zero.
  - now rewrite H.
Qed.

Section Closed.

Variable P : npfloat -> Prop.
Hypothesis P_add : forall x y, P x -> P y -> P (add x y).

Lemma fold_add_closed l : forall a,
  P a -> Forall P l -> P (fold_left add l a).
Proof.
  induction l as [|x l IH]; intros a Ha Hl; simpl; [exact Ha|].
  inversion Hl; subst. apply IH; auto.
Qed.

Lemma unrolled_closed n : forall l r0 r1 r2 r3 r4 r5 r6 r7,
  (List.length l <= n)%nat ->
  Forall P [r0; r1; r2; r3; r4; r5; r6; r7] -> Forall P l ->
  P (unrolled r0 r1 r2 r3 r4 r5 r6 r7 l).
Proof.
  induction n as [|n IH]; intros l r0 r1 r2 r3 r4 r5 r6 r7 L R H.
  - destruct l; [|simpl in L; lia]. simpl.
    repeat match goal with
           | H : Forall P (_ :: _) |- _ => inversion H; subst; clear H
           end.
    auto 10.
  - repeat match goal with
           | H : Forall P (_ :: _) |- _ => inversion H; subst; clear H
           end.
    destruct l as [|a0 [|a1 [|a2 [|a3 [|a4 [|a5 [|a6 [|a7 rest]]]]]]]];
      cbn [unrolled];
      try (apply fold_add_closed; [auto 10|assumption]).
    repeat match goal with
           | H : Forall P (_ :: _) |- _ => inversion H; subst; clear H
           end.
    apply IH; [simpl in L; lia| |assumption].
    repeat constructor; auto.
Qed.

Hypothesis P_minus_zero : P minus_zero.

Lemma block_sum_closed l : Forall P l -> P (block_sum l).
Proof.
  intros H.
  destruct l as [|a0 [|a1 [|a2 [|a3 [|a4 [|a5 [|a6 [|a7 rest]]]]]]]];
    cbn [block_sum]; try (apply fold_add_closed; assumption).
  repeat match goal with
         | H : Forall P (_ :: _) |- _ => inversion H; subst; clear H
         end.
  apply (unrolled_closed (List.length rest)); [lia| |assumption].
  repeat constructor; auto.
Qed.

Lemma pairwise_sum_closed fuel : forall l,
  Forall P l -> P (pairwise_sum fuel l).
Proof.
  induction fuel as [|fuel IH]; intros l H; cbn [pairwise_sum];
    [now apply block_sum_closed|].
  destruct (128 <? List.length l)%nat; [|now apply block_sum_closed].
  set (n2 := (List.length l / 2 - (List.length l / 2) mod 8)%nat).
  rewrite <- (firstn_skipn n2 l) in H. apply Forall_app in H as [H1 H2].
  apply P_add; apply IH; assumption.
Qed.

End Closed.

Lemma sum_not_below_zero l :
  Forall not_below_zero l -> not_below_zero (sum l).
Proof.
  intros H. unfold sum. apply add_not_below_zero; [reflexivity|].
  apply pairwise_sum_closed; [exact add_not_below_zero|reflexivity|exact H].
Qed.

Lemma mean_not_below_zero l :
  Forall not_below_zero l -> not_below_zero (mean l).
Proof.
  intros H. unfold mean, div_count.
  apply div_not_below_zero; [now apply sum_not_below_zero|apply of_nat_signbit].
Qed.

(** The fuel of [sum] is enough: more of it changes nothing. *)
Lemma pairwise_sum_fuel f1 : forall f2 l,
  (List.length l <= f1)%nat -> (List.length l <= f2)%nat ->
  pairwise_sum f1 l = pairwise_sum f2 l.
Proof.
  induction f1 as [|f1 IH]; intros f2 l L1 L2.
  - destruct l; [|simpl in L1; lia]. destruct f2; reflexivity.
  - destruct f2 as [|f2].
    { destruct l; [|simpl in L2; lia]. reflexivity. }
    cbn [pairwise_sum].
    destruct (Nat.ltb_spec 128 (List.length l)) as [G|_]; [|reflexivity].
    set (n := List.length l) in *.
    set (n2 := (n / 2 - (n / 2) mod 8)%nat).
    assert (1 <= n2 < n)%nat as B.
    { subst n2.
      pose proof (Nat.mod_upper_bound (n / 2) 8 ltac:(lia)).
      pose proof (Nat.div_lt n 2 ltac:(lia) ltac:(lia)).
      assert (64 <= n / 2)%nat by (apply Nat.div_le_lower_bound; lia).
      lia. }
    f_equal; apply IH; rewrite ?length_firstn, ?length_skipn; fold n; lia.
Qed.

(** Equality of doubles, the sign of zero apart. *)

Lemma eqv_refl x : eqv x x.
Proof. destruct x; simpl; auto. Qed.

Lemma add_minus_zero x : add minus_zero x = x.
Proof. destruct x as [[|]|[|]| |s m e]; reflexivity. Qed.

Lemma add_zero_eqv x : eqv (add (of_Z 0) x) x.
Proof. destruct x as [[|]|[|]| |s m e]; simpl; auto. Qed.

Lemma div_eqv x y n :
  eqv x y -> signbit n = false -> n <> S754_zero false -> eqv (div x n) (div y n).
Proof.
  intros E S N.
  destruct x as [sx|sx| |sx mx ex], y as [sy|sy| |sy my ey]; simpl in E;
    try (rewrite E; apply eqv_refl); try apply eqv_refl; try discriminate.
  destruct n as [[|]|[|]| |[|] m e]; simpl in S; try discriminate;
    try congruence; unfold div; simpl; auto.
Qed.

Lemma eqv_trans x y z : eqv x y -> eqv y z -> eqv x z.
Proof.
  destruct x, y, z; simpl; intros H1 H2; auto; try discriminate;
    try destruct H1; try destruct H2; congruence.
Qed.

Lemma add_eqv_l x x' y : eqv x x' -> eqv (add x y) (add x' y).
Proof.
  intros E.
  destruct x as [sx|sx| |sx mx ex], x' as [sx'|sx'| |sx' mx' ex']; simpl in E;
    try (rewrite E; apply eqv_refl); try apply eqv_refl; try discriminate.
  destruct y as [[|]|[|]| |s m e], sx, sx'; unfold add; simpl; auto.
Qed.

Lemma fold_add_eqv l : forall a a',
  eqv a a' -> eqv (fold_left add l a) (fold_left add l a').
Proof.
  induction l as [|x l IH]; intros a a' E; simpl; [exact E|].
  now apply IH, add_eqv_l.
Qed.

(** Fewer than eight values are added from left to right. *)
Lemma sum_short l :
  (List.length l < 8)%nat -> eqv (sum l) (fold_left add l (Num 0)).
Proof.
  intros L. unfold sum.
  assert (pairwise_sum (List.length l) l = fold_left add l minus_zero) as ->.
  { destruct l as [|a0 [|a1 [|a2 [|a3 [|a4 [|a5 [|a6 [|a7 rest]]]]]]]];
      try reflexivity.
    simpl in L. lia. }
  eapply eqv_trans; [apply add_zero_eqv|].
  apply fold_add_eqv. exact I.
Qed.

(** The doubles of some literals of the script. *)
Lemma literals :
  Num (1 # 1000) = S754_finite false 4611686018427388 (-62) /\
  Num (-1) = S754_finite true 4503599627370496 (-52) /\
  Num 0 = S754_zero false /\
  Num (5 # 100) = S754_finite false 7205759403792794 (-57).
Proof. repeat split. Qed.

Lemma mean_pair a b : eqv (mean [a; b]) (div (add a b) (Num 2)).
Proof.
  unfold mean, sum, div_count. cbn [List.length pairwise_sum Nat.ltb Nat.leb].
  cbn [block_sum fold_left]. rewrite add_minus_zero.
  change (of_Z (Z.of_nat 2)) with (Num 2).
  apply div_eqv; [apply add_zero_eqv|reflexivity|discriminate].
Qed.

End NPFacts.

(** * Result keys *)

Module FormatFacts.
Import Format.

Lemma zeros_digits k d :
  (zeros k ++ NilEmpty.string_of_uint d)%string
  = NilEmpty.string_of_uint (Nat.iter k D0 d).
Proof.
  induction k as [|k IH]; simpl; [reflexivity|]. now rewrite IH.
Qed.

Lemma of_uint_pad k d : N.of_uint (Nat.iter k D0 d) = N.of_uint d.
Proof.
  induction k as [|k IH]; simpl; [reflexivity|]. exact IH.
Qed.

Lemma value_zfill w d :
  value (zfill w (NilEmpty.string_of_uint d)) = Some (N.of_uint d).
Proof.
  unfold value, zfill. rewrite zeros_digits, NilEmpty.usu. simpl.
  now rewrite of_uint_pad.
Qed.

Lemma value_dash r : value (String "-" r) = None.
Proof.
  unfold value. simpl. now destruct (NilEmpty.uint_of_string r).
Qed.

Lemma value_empty_digits d :
  d <> Nil -> NilEmpty.string_of_uint d <> EmptyString.
Proof. destruct d; simpl; congruence. Qed.

Lemma parse_unsigned s n :
  value s = Some n -> s <> EmptyString -> parse s = Some (Z.of_N n).
Proof.
  intros Hv Hs. destruct s as [|a r]; [congruence|]. unfold parse.
  destruct (Ascii.eqb_spec a "-") as [->|_].
  - rewrite value_dash in Hv. discriminate.
  - now rewrite Hv.
Qed.

Lemma zfill_nonempty w s : s <> EmptyString -> zfill w s <> EmptyString.
Proof.
  unfold zfill. destruct (w - String.length s)%nat; simpl; [auto|discriminate].
Qed.

Lemma parse_format n : parse (format_06d n) = Some n.
Proof.
  destruct n as [|q|q]; unfold format_06d.
  - reflexivity.
  - rewrite (parse_unsigned _ (Npos q)); [reflexivity| |].
    + rewrite value_zfill. f_equal. apply DecimalN.Unsigned.of_to.
    + apply zfill_nonempty, value_empty_digits, DecimalPos.Unsigned.to_uint_nonnil.
  - unfold parse. rewrite Ascii.eqb_refl, value_zfill.
    now rewrite DecimalPos.Unsigned.of_to.
Qed.

Lemma format_06d_inj a b : format_06d a = format_06d b -> a = b.
Proof.
  intros H. apply (f_equal parse) in H. rewrite !parse_format in H.
  now injection H.
Qed.

Lemma contains_app c s t :
  contains c (s ++ t)%string = contains c s || contains c t.
Proof.
  induction s as [|a s IH]; simpl; [reflexivity|].
  now rewrite IH, orb_assoc.
Qed.

Lemma digits_no_sep d : contains "_" (NilEmpty.string_of_uint d) = false.
Proof. induction d; simpl; auto. Qed.

Lemma zeros_no_sep k : contains "_" (zeros k) = false.
Proof. induction k; simpl; auto. Qed.

Lemma format_06d_no_sep n : contains "_" (format_06d n) = false.
Proof.
  destruct n; unfold format_06d, zfill; simpl contains;
    rewrite ?contains_app, ?zeros_no_sep, ?digits_no_sep; reflexivity.
Qed.

Lemma split_unique c a a' b b' :
  contains c a = false -> contains c a' = false ->
  (a ++ String c b = a' ++ String c b')%string -> a = a' /\ b = b'.
Proof.
  revert a'. induction a as [|x a IH]; intros [|x' a'] Ha Ha' H; simpl in *.
  - injection H as ->. auto.
  - injection H as <- _. now rewrite Ascii.eqb_refl in Ha'.
  - injection H as -> _. now rewrite Ascii.eqb_refl in Ha.
  - apply orb_false_iff in Ha as [_ Ha]. apply orb_false_iff in Ha' as [_ Ha'].
    injection H as -> H. destruct (IH a' Ha Ha' H) as [-> ->]. auto.
Qed.

Lemma result_key_inj s i s' i' :
  result_key s i = result_key s' i' -> s = s' /\ i = i'.
Proof.
  unfold result_key. intros H.
  apply split_unique in H; try apply format_06d_no_sep.
  destruct H as [H1 H2]. split; now apply format_06d_inj.
Qed.

End FormatFacts.

(** * Timing validation *)

Lemma time_differs_spec a b : time_differs a b = true <-> differ a b.
Proof. unfold time_differs, differ. tauto. Qed.

Lemma est_key_eq a b : est_key a = est_key b <-> same_image a b.
Proof.
  unfold est_key, same_image. split.
  - apply FormatFacts.result_key_inj.
  - intros [-> ->]. reflexivity.
Qed.

Lemma same_imageb_spec a b : same_imageb a b = true <-> same_image a b.
Proof.
  unfold same_imageb, same_image.
  rewrite andb_true_iff, !Z.eqb_eq. tauto.
Qed.

Lemma dict_get_set_same {V} k (v : V) d : Dict.get k (Dict.set k v d) = Some v.
Proof.
  induction d as [|[k' v'] d IH]; simpl.
  - now rewrite String.eqb_refl.
  - destruct (String.eqb k' k) eqn:E; simpl; rewrite ?String.eqb_refl, ?E; auto.
Qed.

Lemma dict_get_set_other {V} k k' (v : V) d :
  k <> k' -> Dict.get k' (Dict.set k v d) = Dict.get k' d.
Proof.
  intros N. induction d as [|[k0 v0] d IH]; simpl.
  - destruct (String.eqb_spec k k'); congruence.
  - destruct (String.eqb_spec k0 k) as [->|N0]; simpl.
    + destruct (String.eqb_spec k k'); congruence.
    + destruct (String.eqb_spec k0 k'); auto.
Qed.

Lemma dict_set_new {V} k (v : V) d :
  Dict.get k d = None -> Dict.set k v d = d ++ [(k, v)].
Proof.
  induction d as [|[k0 v0] d IH]; simpl; [reflexivity|].
  destruct (String.eqb k0 k); [discriminate|]. intros H. now rewrite IH.
Qed.

Lemma first_time_app k l1 l2 :
  first_time k (l1 ++ l2) =
  match first_time k l1 with Some t => Some t | None => first_time k l2 end.
Proof.
  induction l1 as [|e l1 IH]; simpl; [reflexivity|].
  destruct (String.eqb (est_key e) k); auto.
Qed.

Lemma represents_record seen times e :
  represents seen times -> Dict.get (est_key e) times = None ->
  represents (seen ++ [e]) (Dict.set (est_key e) (time e) times).
Proof.
  intros R G k. rewrite first_time_app. simpl.
  destruct (String.eqb_spec (est_key e) k) as [<-|N].
  - rewrite dict_get_set_same, <- R, G. reflexivity.
  - rewrite dict_get_set_other by assumption. rewrite R.
    now destruct (first_time k seen).
Qed.

Lemma represents_skip seen times e t :
  represents seen times -> Dict.get (est_key e) times = Some t ->
  represents (seen ++ [e]) times.
Proof.
  intros R G k. rewrite first_time_app, R. simpl.
  destruct (first_time k seen) eqn:F; [reflexivity|].
  destruct (String.eqb_spec (est_key e) k) as [<-|N]; [|reflexivity].
  rewrite <- R, G in F. discriminate.
Qed.

Lemma first_time_none_iff k seen :
  first_time k seen = None <-> forall x, In x seen -> est_key x <> k.
Proof.
  induction seen as [|e seen IH]; simpl.
  - split; [intros _ x []|reflexivity].
  - destruct (String.eqb_spec (est_key e) k) as [E|N].
    + split; [discriminate|]. intros H. exfalso. exact (H e (or_introl eq_refl) E).
    + rewrite IH. split.
      * intros H x [<-|I]; auto.
      * intros H x I. apply H. now right.
Qed.

Lemma seen_image_iff e seen :
  existsb (same_imageb e) seen = false <-> first_time (est_key e) seen = None.
Proof.
  rewrite first_time_none_iff. split.
  - intros H x I K. apply est_key_eq in K.
    assert (existsb (same_imageb e) seen = true); [|congruence].
    apply existsb_exists. exists x. split; [assumption|].
    apply same_imageb_spec. destruct K. split; congruence.
  - intros H. destruct (existsb (same_imageb e) seen) eqn:E; [|reflexivity].
    apply existsb_exists in E as (x & I & S). apply same_imageb_spec in S.
    exfalso. apply (H x I). apply est_key_eq. destruct S. split; congruence.
Qed.

(** The loop, when it ends normally. *)
Lemma times_loop_ok rest : forall seen times b times',
  represents seen times ->
  times_loop rest times = Ok (b, times') ->
  b = negb (has_negative_time rest) /\
  (b = true ->
   represents (seen ++ rest) times' /\
   Dict.values times' = Dict.values times ++ per_image_times_from seen rest).
Proof.
  induction rest as [|e rest IH]; intros seen times b times' R H; simpl in H.
  - injection H as <- <-. split; [reflexivity|]. intros _.
    rewrite !app_nil_r. auto.
  - unfold has_negative_time. simpl. unfold negative_time at 1.
    destruct (NP.ltb (time e) (Num 0)) eqn:Neg.
    + injection H as <- <-. split; [reflexivity|discriminate].
    + simpl. destruct (Dict.get (est_key e) times) as [t|] eqn:G.
      * destruct (time_differs t (time e)); [discriminate|].
        destruct (IH (seen ++ [e]) times b times' (represents_skip _ _ _ _ R G) H)
          as [Hb Hv].
        split; [exact Hb|]. intros Bt. destruct (Hv Bt) as [R' V].
        rewrite <- app_assoc in R'. split; [exact R'|].
        rewrite V. f_equal.
        destruct (existsb (same_imageb e) seen) eqn:S; [reflexivity|].
        apply seen_image_iff in S. rewrite <- R, G in S. discriminate.
      * destruct (IH (seen ++ [e]) _ b times' (represents_record _ _ _ R G) H)
          as [Hb Hv].
        split; [exact Hb|]. intros Bt. destruct (Hv Bt) as [R' V].
        rewrite <- app_assoc in R'. split; [exact R'|].
        rewrite V. rewrite (dict_set_new _ _ _ G). unfold Dict.values.
        rewrite map_app, <- app_assoc. cbn [map snd]. f_equal.
        destruct (existsb (same_imageb e) seen) eqn:S; [|reflexivity].
        assert (first_time (est_key e) seen <> None) as F.
        { intros F. apply seen_image_iff in F. congruence. }
        rewrite <- R, G in F. congruence.
Qed.

Lemma first_time_some k l t :
  first_time k l = Some t ->
  exists l1 e1 l2, l = l1 ++ e1 :: l2 /\ est_key e1 = k /\ time e1 = t /\
                   forall x, In x l1 -> est_key x <> k.
Proof.
  induction l as [|e l IH]; simpl; [discriminate|].
  destruct (String.eqb_spec (est_key e) k) as [E|N].
  - intros [= <-]. exists [], e, l. repeat split; auto.
  - intros H. destruct (IH H) as (l1 & e1 & l2 & -> & K & T & F).
    exists (e :: l1), e1, l2. repeat split; auto.
    intros x [<-|I]; auto.
Qed.

Lemma first_time_found k l1 e1 l2 :
  est_key e1 = k -> (forall x, In x l1 -> est_key x <> k) ->
  first_time k (l1 ++ e1 :: l2) = Some (time e1).
Proof.
  intros K F. rewrite first_time_app.
  replace (first_time k l1) with (@None npfloat).
  - simpl. rewrite K, String.eqb_refl. reflexivity.
  - symmetry. now apply first_time_none_iff.
Qed.

Lemma has_negative_app l1 l2 :
  has_negative_time (l1 ++ l2) = has_negative_time l1 || has_negative_time l2.
Proof. apply existsb_app. Qed.

(** The loop, when it raises. *)
Lemma times_loop_raise rest : forall seen times ex,
  represents seen times ->
  times_loop rest times = Raise ex ->
  exists pre e post t1,
    rest = pre ++ e :: post /\
    has_negative_time (pre ++ [e]) = false /\
    ex = TimingValueError (scene_id e) (im_id e) /\
    first_time (est_key e) (seen ++ pre) = Some t1 /\
    time_differs t1 (time e) = true.
Proof.
  induction rest as [|e rest IH]; intros seen times ex R H; simpl in H;
    [discriminate|].
  destruct (NP.ltb (time e) (Num 0)) eqn:Neg; [discriminate|].
  destruct (Dict.get (est_key e) times) as [t|] eqn:G.
  - destruct (time_differs t (time e)) eqn:D.
    + injection H as <-. exists [], e, rest, t. rewrite app_nil_r.
      repeat split; auto.
      * unfold has_negative_time. simpl. unfold negative_time. now rewrite Neg.
      * now rewrite <- R.
    + destruct (IH _ _ _ (represents_skip _ _ _ _ R G) H)
        as (pre & e' & post & t1 & -> & Hn & -> & F & D').
      exists (e :: pre), e', post, t1. rewrite <- app_assoc in F.
      repeat split; auto.
      change ((e :: pre) ++ [e']) with ([e] ++ (pre ++ [e'])).
      rewrite has_negative_app, Hn. unfold has_negative_time. simpl.
      unfold negative_time. now rewrite Neg.
  - destruct (IH _ _ _ (represents_record _ _ _ R G) H)
      as (pre & e' & post & t1 & -> & Hn & -> & F & D').
    exists (e :: pre), e', post, t1. rewrite <- app_assoc in F.
    repeat split; auto.
    change ((e :: pre) ++ [e']) with ([e] ++ (pre ++ [e'])).
    rewrite has_negative_app, Hn. unfold has_negative_time. simpl.
    unfold negative_time. now rewrite Neg.
Qed.

(** A conflict on the scanned part makes the loop raise. *)
Lemma times_loop_conflict pre : forall seen times e post t1,
  represents seen times ->
  has_negative_time (pre ++ [e]) = false ->
  first_time (est_key e) (seen ++ pre) = Some t1 ->
  time_differs t1 (time e) = true ->
  exists ex, times_loop (pre ++ e :: post) times = Raise ex.
Proof.
  induction pre as [|x pre IH]; intros seen times e post t1 R Hn F D.
  - rewrite app_nil_r in F. simpl in *. unfold has_negative_time in Hn.
    simpl in Hn. unfold negative_time in Hn. rewrite orb_false_r in Hn.
    rewrite Hn, R, F, D. eauto.
  - change ((x :: pre) ++ [e]) with ([x] ++ (pre ++ [e])) in Hn.
    rewrite has_negative_app in Hn. apply orb_false_iff in Hn as [Hx Hn].
    unfold has_negative_time in Hx. simpl in Hx. unfold negative_time in Hx.
    rewrite orb_false_r in Hx. simpl. rewrite Hx.
    replace (seen ++ x :: pre) with ((seen ++ [x]) ++ pre) in F
      by now rewrite <- app_assoc.
    destruct (Dict.get (est_key x) times) as [t|] eqn:G.
    + destruct (time_differs t (time x)); [eauto|].
      exact (IH _ _ _ _ _ (represents_skip _ _ _ _ R G) Hn F D).
    + exact (IH _ _ _ _ _ (represents_record _ _ _ R G) Hn F D).
Qed.

Lemma represents_nil : represents [] [].
Proof. intros k. reflexivity. Qed.

Lemma average_time_ok ests avg :
  average_time_per_image ests = Ok avg ->
  avg = if has_negative_time ests then unavailable
        else NP.mean (per_image_times ests).
Proof.
  unfold average_time_per_image.
  destruct (times_loop ests []) as [[b times]|ex] eqn:L; [|discriminate].
  destruct (times_loop_ok _ _ _ _ _ represents_nil L) as [Hb Hv].
  destruct b.
  - intros [= <-]. destruct (Hv eq_refl) as [_ V].
    symmetry in Hb. apply negb_true_iff in Hb. rewrite Hb.
    now rewrite V.
  - intros [= <-]. symmetry in Hb. apply negb_false_iff in Hb. now rewrite Hb.
Qed.

Lemma average_time_raise ests ex :
  average_time_per_image ests = Raise ex ->
  exists e1 e2, recorded_conflict ests e1 e2 /\
                ex = TimingValueError (scene_id e2) (im_id e2).
Proof.
  unfold average_time_per_image.
  destruct (times_loop ests []) as [[b times]|ex'] eqn:L.
  - destruct b; discriminate.
  - intros [= <-].
    destruct (times_loop_raise _ _ _ _ represents_nil L)
      as (pre & e & post & t1 & -> & Hn & -> & F & D).
    simpl in F. destruct (first_time_some _ _ _ F) as (l1 & e1 & l2 & -> & K & T & N).
    exists e1, e. split; [|reflexivity].
    exists l1, l2, post. rewrite <- !app_assoc in *. simpl in *.
    repeat split; auto.
    + now apply est_key_eq.
    + now apply est_key_eq.
    + intros x I S. apply (N x I). now apply est_key_eq.
    + apply time_differs_spec. now rewrite T.
Qed.

Lemma average_time_conflict ests e1 e2 :
  recorded_conflict ests e1 e2 ->
  exists s i, average_time_per_image ests = Raise (TimingValueError s i).
Proof.
  intros (l1 & l2 & l3 & -> & Hn & S & N & D).
  assert (exists ex, times_loop (l1 ++ e1 :: l2 ++ e2 :: l3) [] = Raise ex)
    as [ex L].
  { replace (l1 ++ e1 :: l2 ++ e2 :: l3) with ((l1 ++ e1 :: l2) ++ e2 :: l3)
      by now rewrite <- app_assoc.
    apply (times_loop_conflict _ [] [] e2 l3 (time e1) represents_nil).
    - now rewrite <- app_assoc.
    - simpl. apply first_time_found; [now apply est_key_eq|].
      intros x I K. apply (N x I). now apply est_key_eq.
    - now apply time_differs_spec. }
  assert (average_time_per_image (l1 ++ e1 :: l2 ++ e2 :: l3) = Raise ex) as A.
  { unfold average_time_per_image. now rewrite L. }
  destruct (average_time_raise _ _ A) as (_ & e & _ & ->). eauto.
Qed.

Lemma average_time_consistent ests :
  (forall l1 e1 l2 e2 l3,
      ests = l1 ++ e1 :: l2 ++ e2 :: l3 -> same_image e1 e2 ->
      ~ differ (time e1) (time e2)) ->
  exists avg, average_time_per_image ests = Ok avg.
Proof.
  intros H. destruct (average_time_per_image ests) as [avg|ex] eqn:A; [eauto|].
  destruct (average_time_raise _ _ A) as (e1 & e2 & C & _).
  destruct C as (l1 & l2 & l3 & E & _ & S & _ & D).
  exfalso. exact (H _ _ _ _ _ E S D).
Qed.

(** * Aggregation *)

Lemma mentions_In l x : mentions l x = true <-> In x l.
Proof.
  unfold mentions. rewrite existsb_exists. split.
  - intros (y & I & E). apply String.eqb_eq in E. now subst.
  - intros I. exists x. split; [assumption|apply String.eqb_refl].
Qed.

Lemma first_occurrences_from_snoc l : forall earlier x,
  first_occurrences_from earlier (l ++ [x]) =
  first_occurrences_from earlier l
  ++ (if mentions (earlier ++ l) x then [] else [x]).
Proof.
  induction l as [|y l IH]; intros earlier x; simpl.
  - now rewrite !app_nil_r.
  - rewrite IH, <- !app_assoc. reflexivity.
Qed.

Lemma first_occurrences_from_In l : forall earlier x,
  In x (first_occurrences_from earlier l) <-> In x l /\ ~ In x earlier.
Proof.
  induction l as [|y l IH]; intros earlier x; simpl; [tauto|].
  rewrite in_app_iff, IH, in_app_iff. simpl.
  destruct (mentions earlier y) eqn:M.
  - apply mentions_In in M. simpl. split.
    + intros [[]|(I & N)]; tauto.
    + intros ([<-|I] & N); [tauto|].
      right. split; [assumption|]. intros [H|[<-|[]]]; tauto.
  - assert (~ In y earlier) as N by (rewrite <- mentions_In; congruence).
    simpl. split.
    + intros [[<-|[]]|(I & N')]; tauto.
    + intros ([<-|I] & N'); [tauto|].
      destruct (string_dec y x) as [<-|D]; [tauto|].
      right. split; [assumption|]. intros [H|[H|[]]]; tauto.
Qed.

Lemma first_occurrences_from_NoDup l : forall earlier,
  NoDup (first_occurrences_from earlier l).
Proof.
  induction l as [|y l IH]; intros earlier; simpl; [constructor|].
  destruct (mentions earlier y); simpl; [apply IH|].
  constructor; [|apply IH].
  rewrite first_occurrences_from_In, in_app_iff. simpl. tauto.
Qed.

Lemma first_occurrences_In l x : In x (first_occurrences l) <-> In x l.
Proof. unfold first_occurrences. rewrite first_occurrences_from_In. simpl. tauto. Qed.

Lemma scores_of_object_snoc obj es o s :
  scores_of_object obj (es ++ [(o, s)]) =
  scores_of_object obj es ++ (if String.eqb o obj then [s] else []).
Proof.
  unfold scores_of_object. rewrite filter_app, map_app. simpl.
  now destruct (String.eqb o obj).
Qed.

Lemma scores_of_object_absent obj es :
  ~ In obj (map fst es) -> scores_of_object obj es = [].
Proof.
  unfold scores_of_object. induction es as [|[o s] es IH]; simpl; [reflexivity|].
  intros N. destruct (String.eqb_spec o obj) as [->|D]; [tauto|].
  apply IH. tauto.
Qed.

Section Tabulate.
Context {V : Type}.

Lemma get_tabulate (f : string -> V) ks k :
  Dict.get k (tabulate f ks) = if mentions ks k then Some (f k) else None.
Proof.
  induction ks as [|k0 ks IH]; simpl; [reflexivity|].
  rewrite (String.eqb_sym k k0).
  destruct (String.eqb_spec k0 k) as [->|D]; simpl; [reflexivity|exact IH].
Qed.

Lemma set_tabulate (f : string -> V) ks k v :
  NoDup ks -> In k ks ->
  Dict.set k v (tabulate f ks)
  = tabulate (fun k' => if String.eqb k' k then v else f k') ks.
Proof.
  induction 1 as [|k0 ks N ND IH]; simpl; [tauto|].
  destruct (String.eqb_spec k0 k) as [->|D].
  - intros _. f_equal. apply map_ext_in. intros a I.
    destruct (String.eqb_spec a k) as [->|]; [tauto|reflexivity].
  - intros [E|I]; [congruence|]. now rewrite IH.
Qed.
End Tabulate.

Lemma add_entry_grouping es e :
  add_entry (grouping es) e = grouping (es ++ [e]).
Proof.
  destruct e as [o s]. unfold add_entry, setdefault_append, grouping. simpl.
  fold (tabulate (fun obj => scores_of_object obj es) (first_occurrences (map fst es))).
  rewrite get_tabulate, map_app. simpl. unfold first_occurrences at 4.
  rewrite first_occurrences_from_snoc. simpl.
  fold (first_occurrences (map fst es)).
  destruct (mentions (first_occurrences (map fst es)) o) eqn:M.
  - assert (In o (map fst es)) as I
        by (apply first_occurrences_In, mentions_In; exact M).
    apply mentions_In in I. rewrite I, app_nil_r.
    rewrite set_tabulate.
    + apply map_ext. intros a. rewrite scores_of_object_snoc.
      rewrite (String.eqb_sym a o).
      destruct (String.eqb_spec o a) as [->|D];
        [reflexivity|now rewrite app_nil_r].
    + apply first_occurrences_from_NoDup.
    + apply mentions_In in I. now apply first_occurrences_In.
  - assert (~ In o (map fst es)) as N.
    { intros I. apply first_occurrences_In, mentions_In in I. congruence. }
    assert (mentions (map fst es) o = false) as M'.
    { destruct (mentions (map fst es) o) eqn:E; [|reflexivity].
      apply mentions_In in E. tauto. }
    rewrite M'. rewrite dict_set_new by (rewrite get_tabulate, M; reflexivity).
    unfold tabulate. rewrite map_app. simpl. f_equal.
    + apply map_ext_in. intros a I. rewrite scores_of_object_snoc.
      destruct (String.eqb_spec o a) as [E|D]; [|now rewrite app_nil_r].
      subst a. rewrite first_occurrences_In in I. contradiction.
    + rewrite scores_of_object_snoc, String.eqb_refl.
      now rewrite scores_of_object_absent.
Qed.

Lemma fold_add_entry es : forall es0,
  fold_left add_entry es (grouping es0) = grouping (es0 ++ es).
Proof.
  induction es as [|e es IH]; intros es0; simpl.
  - now rewrite app_nil_r.
  - rewrite add_entry_grouping, IH, <- app_assoc. reflexivity.
Qed.

(** One threshold file. *)
Lemma scan_objects_ok entries num : forall d ign d' ign',
  scan_objects entries num d ign = Ok (d', ign') ->
  d' = fold_left add_entry
         (filter (fun e => positive_count num (fst e)) entries) d /\
  ign' = ign ++ map fst
           (filter (fun e => negb (positive_count num (fst e))) entries).
Proof.
  induction entries as [|[o s] entries IH]; intros d ign d' ign' H; simpl in *.
  - injection H as <- <-. now rewrite app_nil_r.
  - destruct (Dict.get o num) as [n|] eqn:G; [|discriminate].
    assert (positive_count num o = (0 <? n)%Z) as P
        by (unfold positive_count; now rewrite G).
    rewrite P. destruct (0 <? n)%Z; simpl.
    + exact (IH _ _ _ _ H).
    + destruct (IH _ _ _ _ H) as [-> ->]. split; [reflexivity|].
      now rewrite <- app_assoc.
Qed.

Lemma scan_objects_total entries num : forall d ign,
  (forall obj, In obj (map fst entries) -> Dict.get obj num <> None) ->
  exists r, scan_objects entries num d ign = Ok r.
Proof.
  induction entries as [|[o s] entries IH]; intros d ign W; simpl.
  - eauto.
  - destruct (Dict.get o num) as [n|] eqn:G.
    + destruct (0 <? n)%Z; apply IH; intros obj I; apply W; simpl; auto.
    + exfalso. apply (W o); simpl; auto.
Qed.

Lemma scan_objects_raise entries num : forall d ign ex,
  scan_objects entries num d ign = Raise ex ->
  exists obj, ex = KeyError obj /\ In obj (map fst entries) /\
              Dict.get obj num = None.
Proof.
  induction entries as [|[o s] entries IH]; intros d ign ex H; simpl in *;
    [discriminate|].
  destruct (Dict.get o num) as [n|] eqn:G.
  - destruct (0 <? n)%Z; destruct (IH _ _ _ H) as (obj & -> & I & N); eauto.
  - injection H as <-. eauto.
Qed.

Lemma threshold_loop_ok files : forall d ign d' ign',
  threshold_loop files d ign = Ok (d', ign') ->
  d' = fold_left add_entry (positive_scores files) d /\
  ign' = ign ++ ignored_objects files.
Proof.
  induction files as [|f files IH]; intros d ign d' ign' H; simpl in *.
  - injection H as <- <-. now rewrite app_nil_r.
  - destruct (scan_objects (scores f) (num_instances_per_object f) d ign)
      as [[d1 ign1]|ex] eqn:S; [|discriminate].
    apply scan_objects_ok in S as [-> ->].
    destruct (IH _ _ _ _ H) as [-> ->].
    unfold positive_scores, ignored_objects. simpl.
    rewrite fold_left_app, <- app_assoc. auto.
Qed.

Lemma threshold_loop_total files : forall d ign,
  Forall well_formed files -> exists r, threshold_loop files d ign = Ok r.
Proof.
  induction files as [|f files IH]; intros d ign W; simpl; [eauto|].
  inversion W as [|? ? Wf Wr]; subst.
  destruct (scan_objects_total (scores f) (num_instances_per_object f) d ign Wf)
    as [[d1 ign1] ->].
  now apply IH.
Qed.

Lemma threshold_loop_raise files : forall d ign ex,
  threshold_loop files d ign = Raise ex ->
  exists f obj, In f files /\ ex = KeyError obj /\
                In obj (Dict.keys (scores f)) /\
                Dict.get obj (num_instances_per_object f) = None.
Proof.
  induction files as [|f files IH]; intros d ign ex H; simpl in *; [discriminate|].
  destruct (scan_objects (scores f) (num_instances_per_object f) d ign)
    as [[d1 ign1]|ex'] eqn:S.
  - destruct (IH _ _ _ H) as (f' & obj & I & R). exists f', obj. tauto.
  - injection H as <-. apply scan_objects_raise in S as (obj & -> & I & N).
    exists f, obj. auto.
Qed.

(** The object loop. *)
Lemma object_loop_spec entries ign : forall acc,
  object_loop entries ign acc =
  if existsb (fun e => is_ignored (fst e) ign) entries then Raise AssertionError
  else Ok (acc ++ map (fun e => NP.mean (snd e)) entries).
Proof.
  induction entries as [|[o l] entries IH]; intros acc; simpl.
  - now rewrite app_nil_r.
  - destruct (is_ignored o ign); simpl; [reflexivity|].
    rewrite IH. destruct (existsb _ entries); [reflexivity|].
    now rewrite <- app_assoc.
Qed.

Lemma is_ignored_In o ign : is_ignored o ign = true <-> In o ign.
Proof.
  unfold is_ignored. rewrite existsb_exists. split.
  - intros (y & I & E). apply String.eqb_eq in E. now subst.
  - intros I. exists o. split; [assumption|apply String.eqb_refl].
Qed.

Lemma grouping_nil : grouping [] = [].
Proof. reflexivity. Qed.

Lemma means_of_grouping es :
  map (fun e => NP.mean (snd e)) (grouping es)
  = map (fun obj => NP.mean (scores_of_object obj es))
      (first_occurrences (map fst es)).
Proof. unfold grouping. rewrite map_map. reflexivity. Qed.

Lemma keys_grouping es : Dict.keys (grouping es) = first_occurrences (map fst es).
Proof.
  unfold Dict.keys, grouping. rewrite map_map. simpl. apply map_id.
Qed.

(** The aggregation in one equation. *)
Lemma mAP_of_files_spec files :
  mAP_of_files files =
  match threshold_loop files [] [] with
  | Raise ex => Raise ex
  | Ok _ =>
      if existsb (fun obj => is_ignored obj (ignored_objects files))
           (averaged_objects files)
      then Raise AssertionError
      else Ok (mean_of_means files)
  end.
Proof.
  unfold mAP_of_files.
  destruct (threshold_loop files [] []) as [[d ign]|ex] eqn:T; [|reflexivity].
  apply threshold_loop_ok in T as [-> ->]. simpl.
  rewrite <- grouping_nil, fold_add_entry. simpl.
  rewrite object_loop_spec. simpl.
  replace (existsb (fun e => is_ignored (fst e) (ignored_objects files))
             (grouping (positive_scores files)))
    with (existsb (fun obj => is_ignored obj (ignored_objects files))
            (averaged_objects files)).
  - destruct (existsb _ (averaged_objects files)); [reflexivity|].
    rewrite means_of_grouping. reflexivity.
  - unfold averaged_objects. rewrite <- keys_grouping. unfold Dict.keys.
    induction (grouping (positive_scores files)) as [|a l IH]; simpl; congruence.
Qed.

(** * Stages and traces *)

Lemma bind_inv {A B} (m : M A) (k : A -> M B) s r s' :
  bind m k s = (r, s') ->
  (exists e, m s = (Raise e, s') /\ r = Raise e) \/
  (exists a s1, m s = (Ok a, s1) /\ k a s1 = (r, s')).
Proof.
  unfold bind. destruct (m s) as [[a|e] s1]; intros H.
  - right. eauto.
  - left. injection H as <- <-. eauto.
Qed.

Lemma split_in_second {A} (l1 l2 pre post : list A) x :
  l1 ++ l2 = pre ++ x :: post -> ~ In x l1 ->
  exists mid, pre = l1 ++ mid /\ l2 = mid ++ x :: post.
Proof.
  revert pre. induction l1 as [|a l1 IH]; intros pre H N; simpl in *.
  - exists pre. auto.
  - destruct pre as [|b pre]; simpl in H.
    + injection H as -> _. tauto.
    + injection H as <- H. destruct (IH pre H) as (mid & -> & ->); [tauto|].
      exists mid. auto.
Qed.

Section Traces.

Variable X : externals.
Variable p : params.

Lemma call_inv c s r s' :
  call X c s = (r, s') ->
  exists st, r = Ok st /\ trace s' = trace s ++ [Started c; Finished c st].
Proof.
  unfold call. destruct (run X c (fs s)) as [st fs'].
  intros [= <- <-]. exists st. auto.
Qed.

(** The sequential score stage: every command before the first failure
    ends with status 0, and nothing runs after a failure. *)
Lemma run_sequential_inv cmds : forall s r s',
  run_sequential X cmds s = (r, s') ->
  exists evs, trace s' = trace s ++ evs /\ stage_events cmds evs /\
    (r = Ok tt /\ all_finished cmds evs /\
     (forall c st, In (Finished c st) evs -> st = 0%Z)
     \/
     exists pre c st,
       evs = pre ++ [Finished c st] /\ st <> 0%Z /\
       r = Raise (RuntimeError scores_failed_msg) /\
       (forall c' st', In (Finished c' st') pre -> st' = 0%Z)).
Proof.
  induction cmds as [|c cmds IH]; intros s r s' H; simpl in H.
  - injection H as <- <-. exists []. rewrite app_nil_r.
    split; [reflexivity|]. split; [intros e []|]. left.
    split; [reflexivity|]. split; [intros c []|intros c st []].
  - apply bind_inv in H as [(e & H & _)|(st & s1 & H & K)].
    + apply call_inv in H as (st & [=] & _).
    + apply call_inv in H as (st' & [= <-] & T1).
      destruct (Z.eqb_spec st 0) as [->|NZ].
      * destruct (IH _ _ _ K) as (evs & T & SE & Cases).
        exists ([Started c; Finished c 0%Z] ++ evs).
        split; [rewrite T, T1, <- app_assoc; reflexivity|].
        split.
        { intros e [<-|[<-|I]].
          - exists c. simpl. auto.
          - exists c. simpl. eauto.
          - destruct (SE e I) as (c' & I' & E). exists c'. simpl. auto. }
        destruct Cases as [(-> & AF & Z)|(pre & c' & st & -> & NZ & -> & Z)].
        { left. split; [reflexivity|]. split.
          - intros c' [<-|I]; [exists 0%Z; simpl; auto|].
            destruct (AF c' I) as (st & I'). exists st. simpl. auto.
          - intros c' st [E|[E|I]]; [discriminate| |eauto].
            now injection E as _ <-. }
        { right. exists ([Started c; Finished c 0%Z] ++ pre), c', st.
          split; [now rewrite <- app_assoc|]. split; [assumption|].
          split; [reflexivity|].
          intros c'' st' [E|[E|I]]; [discriminate| |eauto].
          now injection E as _ <-. }
      * injection K as <- <-. exists [Started c; Finished c st].
        split; [assumption|]. split.
        { intros e [<-|[<-|[]]]; exists c; simpl; eauto. }
        right. exists [Started c], c, st. repeat split; auto.
        intros c' st' [E|[]]. discriminate.
Qed.

Lemma remove_nth_length {A} (l : list A) : forall k x,
  nth_error l k = Some x -> S (List.length (remove_nth k l)) = List.length l.
Proof.
  induction l as [|a l IH]; intros [|k] x H; simpl in *; try discriminate.
  - reflexivity.
  - f_equal. eapply IH, H.
Qed.

Lemma remove_nth_In {A} (l : list A) : forall k x c,
  nth_error l k = Some x ->
  (In c l -> c = x \/ In c (remove_nth k l)) /\
  (In c (remove_nth k l) -> In c l).
Proof.
  induction l as [|a l IH]; intros [|k] x c H; simpl in *; try discriminate.
  - injection H as ->. split; [intros [->|I]; auto|auto].
  - destruct (IH k x c H) as [F B]. split.
    + intros [->|I]; [auto|]. destruct (F I); auto.
    + intros [->|I]; auto.
Qed.

(** The pool: with a worker and two steps per command, every command
    starts and finishes, whatever the scheduler picks, and nothing is raised. *)
Lemma pool_steps_inv fuel : forall workers pending running s r s',
  (1 <= workers)%nat ->
  (2 * List.length pending + List.length running <= fuel)%nat ->
  pool_steps X fuel workers pending running s = (r, s') ->
  r = Ok tt /\
  exists evs, trace s' = trace s ++ evs /\
    stage_events (pending ++ running) evs /\
    all_finished (pending ++ running) evs.
Proof.
  induction fuel as [|fuel IH]; intros workers pending running s r s' W F H.
  - destruct pending, running; simpl in F; try lia.
    simpl in H. injection H as <- <-. split; [reflexivity|].
    exists []. rewrite app_nil_r. split; [reflexivity|].
    split; [intros e []|intros c []].
  - cbn [pool_steps] in H.
    set (startable := if (List.length running <? workers)%nat then pending else [])
      in H.
    set (n := (List.length startable + List.length running)%nat) in H.
    destruct (Nat.eqb_spec n 0) as [Z|NZ].
    + injection H as <- <-. split; [reflexivity|].
      assert (running = []) as -> by (destruct running; simpl in *; [auto|lia]).
      assert (pending = []) as ->.
      { subst n startable. simpl in Z.
        destruct (Nat.ltb_spec 0 workers); [|lia].
        destruct pending; simpl in *; [auto|lia]. }
      exists []. rewrite app_nil_r. split; [reflexivity|].
      split; [intros e []|intros c []].
    + apply bind_inv in H as [(e & H & _)|(c & s1 & H & K)].
      { unfold next_choice in H. destruct (sched s); discriminate. }
      assert (trace s1 = trace s) as T1.
      { unfold next_choice in H. destruct (sched s); injection H as _ <-; reflexivity. }
      assert (c mod n < n)%nat as Hk by (apply Nat.mod_upper_bound; assumption).
      destruct (nth_error startable (c mod n)) as [cmd|] eqn:N1.
      * assert (startable = pending) as E.
        { subst startable. destruct (List.length running <? workers)%nat;
            [reflexivity|]. destruct (c mod n)%nat; discriminate. }
        rewrite E in N1.
        apply bind_inv in K as [(e & K & _)|([] & s2 & K & K2)];
          [discriminate|].
        injection K as <-.
        apply IH in K2 as (-> & evs & T & SE & AF); [|assumption|].
        2:{ pose proof (remove_nth_length _ _ _ N1). rewrite length_app. simpl. lia. }
        split; [reflexivity|]. exists (Started cmd :: evs).
        split; [simpl in T; rewrite T, T1, <- app_assoc; reflexivity|].
        split.
        { intros e [<-|I].
          - exists cmd. split; [|auto]. apply in_or_app. left.
            eapply nth_error_In, N1.
          - destruct (SE e I) as (c' & I' & Ev). exists c'. split; [|assumption].
            rewrite !in_app_iff in *. simpl in I'.
            destruct I' as [I'|[I'|[<-|[]]]]; auto.
            + left. eapply remove_nth_In; eauto.
            + left. eapply nth_error_In, N1. }
        { intros c' I'. destruct (AF c') as (st & I''); [|exists st; simpl; auto].
          rewrite !in_app_iff in *. simpl. destruct I' as [I'|I']; [|auto].
          destruct (proj1 (remove_nth_In _ _ _ c' N1) I') as [->|I2]; auto. }
      * assert (List.length startable <= c mod n)%nat as Ge
            by (apply nth_error_None; assumption).
        destruct (nth_error running (c mod n - List.length startable))
          as [cmd|] eqn:N2.
        2:{ apply nth_error_None in N2. subst n. lia. }
        apply bind_inv in K as [(e & K & _)|([] & s2 & K & K2)].
        { unfold finish in K. destruct (run X cmd (fs s1)); discriminate. }
        assert (exists st, trace s2 = trace s1 ++ [Finished cmd st]) as (st & T2).
        { unfold finish in K. destruct (run X cmd (fs s1)) as [st fs'].
          injection K as <-. exists st. reflexivity. }
        apply IH in K2 as (-> & evs & T & SE & AF); [|assumption|].
        2:{ pose proof (remove_nth_length _ _ _ N2). lia. }
        split; [reflexivity|]. exists (Finished cmd st :: evs).
        split; [rewrite T, T2, T1, <- app_assoc; reflexivity|].
        split.
        { intros e [<-|I].
          - exists cmd. split; [|eauto]. apply in_or_app. right.
            eapply nth_error_In, N2.
          - destruct (SE e I) as (c' & I' & Ev). exists c'. split; [|assumption].
            rewrite !in_app_iff in *. destruct I' as [I'|I']; auto.
            right. eapply remove_nth_In; eauto. }
        { intros c' I'. rewrite in_app_iff in I'.
          destruct I' as [I'|I'].
          - destruct (AF c') as (st' & I''); [apply in_or_app; auto|].
            exists st'. simpl. auto.
          - destruct (proj1 (remove_nth_In _ _ _ c' N2) I') as [->|I2].
            + exists st. simpl. auto.
            + destruct (AF c') as (st' & I''); [apply in_or_app; auto|].
              exists st'. simpl. auto. }
Qed.

(** The score stage in either mode. *)
Lemma run_score_stage_inv cmds s r s' :
  run_score_stage X p cmds s = (r, s') ->
  exists evs, trace s' = trace s ++ evs /\ stage_events cmds evs /\
    (r = Ok tt -> all_finished cmds evs) /\
    (num_workers p = 1%Z ->
     forall pre c st post, evs = pre ++ Finished c st :: post -> st <> 0%Z ->
       post = [] /\ r = Raise (RuntimeError scores_failed_msg)) /\
    ((1 < num_workers p)%Z -> r = Ok tt /\ all_finished cmds evs).
Proof.
  unfold run_score_stage. destruct (Z.eqb_spec (num_workers p) 1) as [E|NE].
  - intros H. apply run_sequential_inv in H as (evs & T & SE & Cases).
    exists evs. split; [assumption|]. split; [assumption|].
    destruct Cases as [(-> & AF & Z)|(pre & c0 & st0 & -> & NZ & -> & Z)].
    + split; [auto|]. split; [|lia].
      intros _ pre c st post -> N. exfalso. apply N, (Z c), in_elt.
    + split; [discriminate|]. split; [|lia].
      intros _ pre' c st post E' N. split; [|reflexivity].
      apply split_in_second in E' as (mid & -> & E'').
      * destruct mid as [|x [|y mid]]; simpl in E''.
        -- now injection E'' as _ _ <-.
        -- injection E'' as _ E''. discriminate.
        -- injection E'' as _ E''. discriminate.
      * intros I. apply Z in I. contradiction.
  - intros H. unfold pool_map_async_join in H.
    destruct (Z.ltb_spec (num_workers p) 1) as [L|G].
    + injection H as <- <-. exists []. rewrite app_nil_r.
      split; [reflexivity|]. split; [intros e []|].
      split; [discriminate|]. split; lia.
    + apply pool_steps_inv in H as (-> & evs & T & SE & AF);
        [|lia|rewrite Nat.add_0_r; simpl; lia].
      rewrite app_nil_r in SE, AF. exists evs.
      split; [assumption|]. split; [assumption|]. split; [auto|].
      split; [lia|auto].
Qed.

(** Loading the two mappings of one score file. *)
Lemma load_pair_inv {B} path (k : Dict.dict npfloat -> Dict.dict Z -> M B) s r s' :
  (sc <- load_scores path ;; num <- load_num_instances path ;; k sc num) s
  = (r, s') ->
  exists s1 evs1,
    fs s1 = fs s /\ sched s1 = sched s /\ trace s1 = trace s ++ evs1 /\
    loads_from [path] evs1 /\
    match Dict.get path (fs s) with
    | Some (ScoresJson f) =>
        k (scores f) (num_instances_per_object f) s1 = (r, s')
    | _ => s' = s1 /\ exists ex, r = Raise ex
    end.
Proof.
  cbv beta delta [bind load_scores load_num_instances load_json ret raise].
  intros H.
  destruct (Dict.get path (fs s)) as [[ests|f|c]|] eqn:G; cbn [fs] in H;
    rewrite ?G in H.
  - injection H as <- <-.
    exists (mkState (fs s) (trace s ++ [LoadJson path]) (sched s)), [LoadJson path].
    split; [reflexivity|]. split; [reflexivity|]. split; [reflexivity|].
    split; [intros ev [<-|[]]; exists path; simpl; auto|].
    split; [reflexivity|eauto].
  - exists (mkState (fs s) ((trace s ++ [LoadJson path]) ++ [LoadJson path])
              (sched s)), [LoadJson path; LoadJson path].
    split; [|split; [|split; [|split; [|exact H]]]]; cbn [fs trace sched].
    + reflexivity.
    + reflexivity.
    + now rewrite <- app_assoc.
    + intros ev [<-|[<-|[]]]; exists path; simpl; auto.
  - injection H as <- <-.
    exists (mkState (fs s) (trace s ++ [LoadJson path]) (sched s)), [LoadJson path].
    split; [reflexivity|]. split; [reflexivity|]. split; [reflexivity|].
    split; [intros ev [<-|[]]; exists path; simpl; auto|].
    split; [reflexivity|eauto].
  - injection H as <- <-.
    exists (mkState (fs s) (trace s ++ [LoadJson path]) (sched s)), [LoadJson path].
    split; [reflexivity|]. split; [reflexivity|]. split; [reflexivity|].
    split; [intros ev [<-|[]]; exists path; simpl; auto|].
    split; [reflexivity|eauto].
Qed.

(** The threshold loop changes nothing but the trace and computes what
    [threshold_loop] computes from the files on disk. *)
Lemma load_threshold_loop_inv name sign ths : forall d ign s r s',
  load_threshold_loop X p name sign ths d ign s = (r, s') ->
  fs s' = fs s /\ sched s' = sched s /\
  exists evs, trace s' = trace s ++ evs /\
    loads_from (map (scores_path X p name sign) ths) evs /\
    forall files,
      Forall2 (fun path f => Dict.get path (fs s) = Some (ScoresJson f))
        (map (scores_path X p name sign) ths) files ->
      r = threshold_loop files d ign.
Proof.
  induction ths as [|th ths IH]; intros d ign s r s' H.
  - simpl in H. injection H as <- <-. repeat split; auto.
    exists []. rewrite app_nil_r. split; [reflexivity|].
    split; [intros e []|]. intros files F. inversion F. reflexivity.
  - cbn [load_threshold_loop] in H.
    apply load_pair_inv in H as (s1 & evs1 & F1 & S1 & T1 & L1 & H).
    destruct (Dict.get (scores_path X p name sign th) (fs s)) as [f|] eqn:G.
    2:{ destruct H as (-> & ex & ->). repeat split; auto.
        exists evs1. split; [assumption|]. split.
        - intros e I. destruct (L1 e I) as (path & [<-|[]] & ->).
          eexists. split; [left; reflexivity|reflexivity].
        - intros files F. inversion F; subst. congruence. }
    destruct f as [ests|c|c].
    1,3: destruct H as (-> & ex & ->); repeat split; auto;
        exists evs1; (split; [assumption|]); split;
        [ intros e I; destruct (L1 e I) as (path & [<-|[]] & ->);
          eexists; split; [left; reflexivity|reflexivity]
        | intros files F; inversion F; subst; congruence ].
    apply bind_inv in H as [(e & H & ->)|(r1 & s2 & H & K)].
    + unfold lift in H. injection H as H <-. repeat split; auto.
      exists evs1. split; [assumption|]. split.
      * intros e' I. destruct (L1 e' I) as (path & [<-|[]] & ->).
        eexists. split; [left; reflexivity|reflexivity].
      * intros files F. inversion F as [|? f0 ? files' G0 F']; subst.
        rewrite G in G0. injection G0 as <-. simpl. now rewrite H.
    + unfold lift in H. injection H as H <-.
      apply IH in K as (F2 & S2 & evs & T2 & L2 & Spec).
      split; [congruence|]. split; [congruence|].
      exists (evs1 ++ evs). split; [rewrite T2, T1, <- app_assoc; reflexivity|].
      split.
      * intros e' I. apply in_app_or in I as [I|I].
        -- destruct (L1 e' I) as (path & [<-|[]] & ->).
           eexists. split; [left; reflexivity|reflexivity].
        -- destruct (L2 e' I) as (path & I' & ->).
           exists path. split; [right; assumption|reflexivity].
      * intros files F. inversion F as [|? f0 ? files' G0 F']; subst.
        rewrite G in G0. injection G0 as <-. simpl. rewrite H.
        destruct r1 as [d1 ign1]. apply Spec. now rewrite F1.
Qed.

(** The aggregation is [mAP_of_files] of the score files on disk. *)
Lemma aggregate_inv name error s r s' :
  aggregate X p name (error_sign_of X error) error s = (r, s') ->
  fs s' = fs s /\ sched s' = sched s /\
  exists evs, trace s' = trace s ++ evs /\
    loads_from (score_paths X p name error) evs /\
    forall files, files_at X p (fs s) name error files ->
                  r = mAP_of_files files.
Proof.
  unfold aggregate. intros H.
  apply bind_inv in H as [(e & H & ->)|([d ign] & s1 & H & K)].
  - apply load_threshold_loop_inv in H as (F & S & evs & T & L & Spec).
    repeat split; auto. exists evs. repeat split; auto.
    intros files FA. unfold mAP_of_files. now rewrite <- (Spec files FA).
  - apply load_threshold_loop_inv in H as (F & S & evs & T & L & Spec).
    assert (fs s' = fs s1 /\ sched s' = sched s1 /\ trace s' = trace s1 /\
            r = match object_loop d ign [] with
                | Raise e => Raise e
                | Ok l => Ok (NP.mean l)
                end) as (F' & S' & T' & R).
    { simpl in K. unfold bind, lift, ret in K.
      destruct (object_loop d ign []); injection K as <- <-; auto. }
    split; [congruence|]. split; [congruence|].
    exists evs. split; [congruence|]. split; [assumption|].
    intros files FA. unfold mAP_of_files. now rewrite <- (Spec files FA).
Qed.

(** One pass of the loop over the error types leaves a segment. *)
Lemma evaluate_error_inv f name dataset error s r s' :
  evaluate_error X p f name dataset error s = (r, s') ->
  exists evs, trace s' = trace s ++ evs /\
              segment X p f name dataset error r evs.
Proof.
  unfold evaluate_error. intros H.
  apply bind_inv in H as [(e & H & _)|(st & s1 & H & K)].
  { apply call_inv in H as (? & [=] & _). }
  apply call_inv in H as (st' & [= <-] & T1).
  set (ce := calc_errors_cmd X p f dataset error) in *.
  destruct (Z.eqb_spec st 0) as [->|NZ]; simpl in K.
  - apply bind_inv in K as [(e & H & ->)|([] & s2 & H & K)].
    + apply run_score_stage_inv in H as (stage & T & SE & _ & Seq & Pool).
      exists (Started ce :: Finished ce 0%Z :: stage ++ []).
      split; [rewrite T, T1, app_nil_r, <- app_assoc; reflexivity|].
      exists 0%Z, stage, []. split; [reflexivity|]. split; [exact SE|].
      split; [intros e' []|]. split; [congruence|]. split; [congruence|].
      intros W pre c st' post E' N.
      destruct (Seq W pre c st' post E' N) as [-> [= ->]]. auto.
    + apply run_score_stage_inv in H as (stage & T & SE & AF & Seq & _).
      apply aggregate_inv in K as (_ & _ & agg & T2 & L & _).
      exists (Started ce :: Finished ce 0%Z :: stage ++ agg).
      split; [rewrite T2, T, T1, <- !app_assoc; reflexivity|].
      exists 0%Z, stage, agg. split; [reflexivity|]. split; [exact SE|].
      split; [exact L|]. split; [congruence|]. split; [auto|].
      intros W pre c st' post E' N.
      destruct (Seq W pre c st' post E' N) as [_ [=]].
  - injection K as <- <-. exists [Started ce; Finished ce st].
    split; [assumption|]. exists st, [], []. split; [reflexivity|].
    split; [intros e []|]. split; [intros e []|]. split; [auto|].
    split; [congruence|]. intros _ [|x pre] c st' post [=].
Qed.

Lemma save_json_inv path c s r s' :
  save_json path c s = (r, s') ->
  r = Ok tt /\ trace s' = trace s ++ [SaveJson path] /\
  Dict.get path (fs s') = Some (FinalScoresJson c).
Proof.
  unfold save_json. intros [= <- <-]. cbn [fs trace].
  rewrite dict_get_set_same. auto.
Qed.

(** One result file, stage by stage. *)
Lemma evaluate_result_inv f s r s' :
  evaluate_result X p f s = (r, s') ->
  let name := result_name_of X f in
  (trace s' = trace s /\ exists ex, r = Raise ex) \/
  exists dataset ests avg r1 e1,
    dataset_of name = Ok dataset /\
    Dict.get (path_join (results_path p) f) (fs s) = Some (ResultsCsv ests) /\
    average_time_per_image ests = Ok avg /\
    segment X p f name dataset mssd r1 e1 /\
    ((trace s' = trace s ++ e1 /\ exists ex, r1 = Raise ex /\ r = Raise ex) \/
     exists m1 r2 e2,
       r1 = Ok m1 /\ segment X p f name dataset mspd r2 e2 /\
       ((trace s' = trace s ++ e1 ++ e2 /\
         exists ex, r2 = Raise ex /\ r = Raise ex) \/
        exists m2 final,
          r2 = Ok m2 /\ r = Ok final /\
          final_scores_of [("mssd", m1); ("mspd", m2)] avg = Ok final /\
          trace s' = trace s ++ e1 ++ e2 ++ [SaveJson (final_scores_path p name)] /\
          Dict.get (final_scores_path p name) (fs s')
          = Some (FinalScoresJson final))).
Proof.
  unfold evaluate_result. intros H. set (name := result_name_of X f) in *.
  apply bind_inv in H as [(e & H & ->)|(dataset & s0 & H & K)].
  { injection H as _ <-. left. eauto. }
  injection H as D <-.
  apply bind_inv in K as [(e & H' & ->)|(ests & s0 & H' & K)]; rename H' into H.
  { left. unfold load_bop_results in H.
    destruct (Dict.get _ (fs s)) as [[| |]|]; injection H as _ <-; eauto. }
  assert (Dict.get (path_join (results_path p) f) (fs s) = Some (ResultsCsv ests)
          /\ s0 = s) as [G ->].
  { unfold load_bop_results in H.
    destruct (Dict.get _ (fs s)) as [[| |]|]; try discriminate.
    injection H as <- <-. auto. }
  clear H.
  apply bind_inv in K as [(e & H & ->)|(avg & s0 & H & K)].
  { injection H as _ <-. left. eauto. }
  injection H as A <-.
  apply bind_inv in K as [(e & H & ->)|(mAPs & s3 & H & K)].
  - right. exists dataset, ests, avg.
    unfold errors in H. cbn [errors_loop] in H.
    apply bind_inv in H as [(x1 & H & [= <-])|(m1 & s1 & H & K)].
    + apply evaluate_error_inv in H as (e1 & T1 & S1).
      exists (Raise e), e1. repeat split; auto. left. eauto.
    + apply evaluate_error_inv in H as (e1 & T1 & S1).
      exists (Ok m1), e1. repeat split; auto. right.
      apply bind_inv in K as [(x2 & H & [= <-])|(m2 & s2 & H & K)];
        [|discriminate].
      apply evaluate_error_inv in H as (e2 & T2 & S2).
      exists m1, (Raise e), e2. repeat split; auto. left.
      split; [rewrite T2, T1, <- app_assoc; reflexivity|eauto].
  - right. exists dataset, ests, avg.
    unfold errors in H. cbn [errors_loop] in H.
    apply bind_inv in H as [(x1 & H & [=])|(m1 & s1 & H & K1)].
    apply evaluate_error_inv in H as (e1 & T1 & S1).
    exists (Ok m1), e1. repeat split; auto. right.
    apply bind_inv in K1 as [(x2 & H & [=])|(m2 & s2 & H & K1)].
    apply evaluate_error_inv in H as (e2 & T2 & S2).
    exists m1, (Ok m2), e2. repeat split; auto. right.
    injection K1 as <- <-.
    apply bind_inv in K as [(e & H & ->)|(final & s4 & H & K)].
    { exfalso. unfold lift in H.
      assert (exists v, final_scores_of [("mssd", m1); ("mspd", m2)] avg = Ok v)
        as (v & E) by (eexists; reflexivity).
      rewrite E in H. discriminate. }
    injection H as F <-.
    apply bind_inv in K as [(e & H & ->)|([] & s5 & H & K)].
    { apply save_json_inv in H as ([=] & _). }
    apply save_json_inv in H as (_ & T3 & G3). injection K as R E.
    subst r s5.
    exists m2, final.
    split; [reflexivity|]. split; [reflexivity|]. split; [now rewrite <- F|].
    split; [|exact G3].
    rewrite T3, T2, T1, <- !app_assoc. reflexivity.
Qed.

(** An element of [l1 ++ l2] is in [l1] or in [l2]. *)
Lemma split_middle {A} (l1 l2 pre post : list A) x :
  l1 ++ l2 = pre ++ x :: post ->
  (exists mid, l1 = pre ++ x :: mid /\ post = mid ++ l2) \/
  (exists mid, pre = l1 ++ mid /\ l2 = mid ++ x :: post).
Proof.
  revert pre. induction l1 as [|a l1 IH]; intros pre H; simpl in *.
  - right. exists pre. auto.
  - destruct pre as [|b pre]; simpl in H.
    + injection H as -> <-. left. exists l1. auto.
    + injection H as <- H. destruct (IH pre H) as [(mid & -> & ->)|(mid & -> & ->)].
      * left. exists mid. auto.
      * right. exists mid. auto.
Qed.

Lemma score_cmds_shape name error c :
  In c (score_cmds X name error) ->
  exists th, In th (correct_th error) /\
    c = CalcScores (path_join name (error_sign_of X error)) (type error) th.
Proof.
  unfold score_cmds. rewrite in_map_iff. intros (th & <- & I). eauto.
Qed.

(** In a segment a fatal status is the last event. *)
Lemma segment_failure f name dataset error r evs pre c st post :
  segment X p f name dataset error r evs ->
  evs = pre ++ Finished c st :: post -> st <> 0%Z ->
  is_calc_errors c = true \/ num_workers p = 1%Z ->
  post = [] /\ exists msg, r = Raise (RuntimeError msg).
Proof.
  intros (st0 & stage & agg & -> & SE & L & Fail & AF & Seq) E N Fatal.
  destruct pre as [|a [|b pre]]; simpl in E.
  - discriminate.
  - injection E as _ <- <- <-. destruct (Fail N) as (-> & -> & ->). eauto.
  - injection E as _ _ E.
    apply split_middle in E as [(mid & -> & ->)|(mid & -> & ->)].
    + assert (num_workers p = 1%Z) as W.
      { destruct Fatal as [C|W]; [|exact W].
        destruct (SE (Finished c st)) as (c' & I & [E|(st' & E)]);
          [apply in_elt|discriminate|].
        injection E as <- _. apply score_cmds_shape in I as (th & _ & ->).
        discriminate. }
      destruct (Seq W _ _ _ _ eq_refl N) as (-> & -> & ->). eauto.
    + destruct (L (Finished c st)) as (path & _ & E); [apply in_elt|discriminate].
Qed.

(** In a segment a score command starts after the error stage has ended
    with status 0. *)
Lemma segment_started f name dataset error r evs pre dir t th post :
  segment X p f name dataset error r evs ->
  evs = pre ++ Started (CalcScores dir t th) :: post ->
  In (Finished (calc_errors_cmd X p f dataset error) 0%Z) pre /\ t = type error.
Proof.
  intros (st0 & stage & agg & -> & SE & L & Fail & AF & Seq) E.
  destruct pre as [|a [|b pre]]; simpl in E; try discriminate.
  injection E as <- <- E.
  assert (In (Started (CalcScores dir t th)) (stage ++ agg)) as I
      by (rewrite E; apply in_elt).
  apply in_app_or in I as [I|I].
  - destruct (Z.eq_dec st0 0) as [->|N].
    + split; [simpl; auto|].
      destruct (SE _ I) as (c' & I' & [E'|(st' & E')]); [|discriminate].
      injection E' as <-. apply score_cmds_shape in I' as (th' & _ & E').
      now injection E' as _ -> _.
    + destruct (Fail N) as (-> & _). destruct I.
  - destruct (L _ I) as (path & _ & E'). discriminate.
Qed.

(** In a segment a load comes after the end of every score command. *)
Lemma segment_load f name dataset error r evs pre path post :
  segment X p f name dataset error r evs ->
  evs = pre ++ LoadJson path :: post ->
  In path (score_paths X p name error) /\
  all_finished (score_cmds X name error) pre.
Proof.
  intros (st0 & stage & agg & -> & SE & L & Fail & AF & Seq) E.
  destruct pre as [|a [|b pre]]; simpl in E; try discriminate.
  injection E as <- <- E.
  apply split_middle in E as [(mid & -> & ->)|(mid & -> & ->)].
  - destruct (SE (LoadJson path)) as (c' & _ & [E|(st' & E)]);
      [apply in_elt|discriminate|discriminate].
  - split.
    + destruct (L (LoadJson path)) as (path' & I & E); [apply in_elt|].
      now injection E as ->.
    + intros c I. destruct (AF (ltac:(now destruct mid)) c I) as (st & I').
      exists st. simpl. right. right. apply in_or_app. auto.
Qed.

Lemma segment_no_save f name dataset error r evs path :
  segment X p f name dataset error r evs -> ~ In (SaveJson path) evs.
Proof.
  intros (st0 & stage & agg & -> & SE & L & Fail & AF & Seq) [E|[E|I]];
    try discriminate.
  apply in_app_or in I as [I|I].
  - destruct (SE _ I) as (c' & _ & [E|(st' & E)]); discriminate.
  - destruct (L _ I) as (path' & _ & E). discriminate.
Qed.

End Traces.

(** An exception in the evaluation of a result file ends the loop over the
    result files. *)
Lemma evaluate_all_stops X p f rest s e s' :
  evaluate_result X p f s = (Raise e, s') ->
  evaluate_all X p (f :: rest) s = (Raise e, s').
Proof.
  intros H. cbn [evaluate_all]. unfold bind. now rewrite H.
Qed.

(** * The claims *)

Lemma positive_scores_In files obj s :
  In (obj, s) (positive_scores files) <->
  exists f, In f files /\ In (obj, s) (scores f) /\
            positive_count (num_instances_per_object f) obj = true.
Proof.
  unfold positive_scores. rewrite in_flat_map. split.
  - intros (f & I & F). apply filter_In in F as [F C]. exists f. auto.
  - intros (f & I & F & C). exists f. split; [assumption|].
    apply filter_In. auto.
Qed.

Lemma ignored_objects_In files obj :
  In obj (ignored_objects files) <->
  exists f s, In f files /\ In (obj, s) (scores f) /\
              positive_count (num_instances_per_object f) obj = false.
Proof.
  unfold ignored_objects. rewrite in_flat_map. split.
  - intros (f & I & F). apply in_map_iff in F as ([o s] & <- & F).
    apply filter_In in F as [F C]. apply negb_true_iff in C.
    exists f, s. auto.
  - intros (f & s & I & F & C). exists f. split; [assumption|].
    apply in_map_iff. exists (obj, s). split; [reflexivity|].
    apply filter_In. split; [assumption|]. apply negb_true_iff. exact C.
Qed.

Lemma averaged_objects_In files obj :
  In obj (averaged_objects files) <->
  exists f s, In f files /\ In (obj, s) (scores f) /\
              positive_count (num_instances_per_object f) obj = true.
Proof.
  unfold averaged_objects. rewrite first_occurrences_In, in_map_iff. split.
  - intros ([o s] & <- & I). apply positive_scores_In in I as (f & I).
    exists f, s. exact I.
  - intros (f & s & I). exists (obj, s). split; [reflexivity|].
    apply positive_scores_In. eauto.
Qed.

Lemma mAP_of_files_ok files m :
  mAP_of_files files = Ok m ->
  m = mean_of_means files /\
  forall obj, In obj (ignored_objects files) -> ~ In obj (averaged_objects files).
Proof.
  rewrite mAP_of_files_spec.
  destruct (threshold_loop files [] []); [|discriminate].
  destruct (existsb _ (averaged_objects files)) eqn:E; [discriminate|].
  intros [= <-]. split; [reflexivity|]. intros obj I A.
  assert (existsb (fun obj => is_ignored obj (ignored_objects files))
            (averaged_objects files) = true); [|congruence].
  apply existsb_exists. exists obj. split; [assumption|].
  now apply is_ignored_In.
Qed.

Lemma mAP_of_files_total files :
  Forall well_formed files ->
  (forall obj, In obj (ignored_objects files) -> ~ In obj (averaged_objects files)) ->
  mAP_of_files files = Ok (mean_of_means files).
Proof.
  intros W D. rewrite mAP_of_files_spec.
  destruct (threshold_loop_total files [] [] W) as [r ->].
  destruct (existsb _ (averaged_objects files)) eqn:E; [|reflexivity].
  apply existsb_exists in E as (obj & A & I). apply is_ignored_In in I.
  exfalso. exact (D obj I A).
Qed.

(** C1, as the script has it.  The aggregation of an error type either
    fails, on its assertion or on a missing instance count, or yields the
    mAP: the mean, over the objects with at least one score from a threshold
    file with a positive instance count, of the mean of the scores the object
    has in such files, both means being [np.mean] of doubles and rounded as
    such.  An object whose instance count is 0 in every threshold file is not
    among these objects and none of its scores is used. *)
Theorem mAP_is_mean_of_object_means files :
  match mAP_of_files files with
  | Ok m => m = mean_of_means files
  | Raise ex =>
      (ex = AssertionError /\
       exists obj, In obj (ignored_objects files) /\
                   In obj (averaged_objects files)) \/
      (exists f obj,
          ex = KeyError obj /\ In f files /\
          In obj (Dict.keys (scores f)) /\
          Dict.get obj (num_instances_per_object f) = None)
  end /\
  (forall obj,
      In obj (averaged_objects files) <->
      exists f s, In f files /\ In (obj, s) (scores f) /\
                  positive_count (num_instances_per_object f) obj = true) /\
  (forall obj,
      (forall f, In f files ->
                 Dict.get obj (num_instances_per_object f) = Some 0%Z) ->
      ~ In obj (averaged_objects files) /\
      forall s, ~ In (obj, s) (positive_scores files)).
Proof.
  split.
  { rewrite mAP_of_files_spec.
    destruct (threshold_loop files [] []) as [r|ex] eqn:T.
    - destruct (existsb _ (averaged_objects files)) eqn:E; [|reflexivity].
      left. split; [reflexivity|].
      apply existsb_exists in E as (obj & A & I).
      apply is_ignored_In in I. eauto.
    - right. apply threshold_loop_raise in T as (f & obj & I & -> & K & N).
      exists f, obj. auto. }
  split; [intros obj; apply averaged_objects_In|].
  intros obj Z.
  assert (forall s, ~ In (obj, s) (positive_scores files)) as N.
  { intros s I. apply positive_scores_In in I as (f & I & _ & C).
    unfold positive_count in C. rewrite (Z f I) in C. discriminate. }
  split; [|exact N].
  intros A. apply averaged_objects_In in A as (f & s & I & F & C).
  apply (N s), positive_scores_In. eauto.
Qed.

Lemma mAP_of_two_objects :
  exists m,
    mAP_of_files Examples.two_objects = Ok m /\
    m = mean_of_means Examples.two_objects /\
    m = NP.mean [NP.mean [Num (2 # 10); Num (4 # 10); Num (6 # 10)];
                 NP.mean [Num 1; Num 1]] /\
    m = S754_finite false 6305039478318695 (-53) /\
    NP.ltb (NP.abs (NP.sub m (Num (7 # 10)))) (Num (1 # 1000000000000000))
    = true.
Proof.
  pose proof (proj1 (mAP_is_mean_of_object_means Examples.two_objects)) as M.
  exists (NP.mean [NP.mean [Num (2 # 10); Num (4 # 10); Num (6 # 10)];
                   NP.mean [Num 1; Num 1]]).
  split; [reflexivity|]. split; [exact M|]. split; [reflexivity|].
  split; vm_compute; reflexivity.
Defined.

(** C1, as the claim has it, fails at its example: the scores 0.2, 0.4 and
    0.6 of object A have the mean 0.4000000000000001 and the mAP is
    0.7000000000000001, the double next above 0.7. *)
Lemma mAP_of_two_objects_is_above_07 :
  exists m,
    mAP_of_files Examples.two_objects = Ok m /\
    NP.gtb m (Num (7 # 10)) = true /\
    m <> Num (7 # 10) /\
    NP.mean [Num (2 # 10); Num (4 # 10); Num (6 # 10)] <> Num (4 # 10).
Proof.
  exists (NP.mean [NP.mean [Num (2 # 10); Num (4 # 10); Num (6 # 10)];
                   NP.mean [Num 1; Num 1]]).
  split; [reflexivity|]. split; [vm_compute; reflexivity|].
  split; vm_compute; discriminate.
Qed.

(** C2.  The combined score is the mean of the two per-error-type values,
    each with weight one half. *)
Theorem combined_mAP_is_unweighted_mean mAPs average_time a b :
  Dict.get "mssd" mAPs = Some a ->
  Dict.get "mspd" mAPs = Some b ->
  exists final,
    final_scores_of mAPs average_time = Ok final /\
    Dict.get "bop24_mAP_mssd" final = Some a /\
    Dict.get "bop24_mAP_mspd" final = Some b /\
    Dict.get "bop24_mAP" final = Some (NP.mean [a; b]) /\
    (NP.mean [a; b] =~ NP.div (NP.add a b) (Num 2))%np.
Proof.
  intros Ha Hb. unfold final_scores_of, errors, mssd, mspd, per_type_scores, lookup.
  cbn [type]. rewrite Ha, Hb. eexists. split; [reflexivity|].
  repeat split. apply NPFacts.mean_pair.
Qed.

Lemma combined_mAP_of_07_05 :
  exists final m,
    final_scores_of Examples.mAP_07_05 (Num 1) = Ok final /\
    Dict.get "bop24_mAP" final = Some m /\ (m =~ Num (60 # 100))%np.
Proof.
  destruct (combined_mAP_is_unweighted_mean Examples.mAP_07_05 (Num 1)
              (Num (70 # 100)) (Num (50 # 100)) eq_refl eq_refl)
    as (final & F & _ & _ & G & _).
  exists final, (NP.mean [Num (70 # 100); Num (50 # 100)]).
  split; [exact F|]. split; [exact G|]. vm_compute. reflexivity.
Defined.

Lemma final_scores_time mAPs avg final :
  final_scores_of mAPs avg = Ok final ->
  Dict.get "bop24_average_time_per_image" final = Some avg.
Proof.
  unfold final_scores_of.
  destruct (per_type_scores errors mAPs []); [|discriminate].
  destruct (lookup "mssd" mAPs); [|discriminate].
  destruct (lookup "mspd" mAPs); [|discriminate].
  intros [= <-]. apply dict_get_set_same.
Qed.

(** C3, as the script has it.  For every sequence of estimates the timing
    validation either raises the inconsistency error of C4, whether or not
    an estimate after the inconsistent one has a negative time, or yields an
    average time per image: exactly -1.0 if some estimate has a negative time
    and otherwise the mean of the times recorded for the images, one per
    image.  The final scores hold this value under
    bop24_average_time_per_image, and so does the saved file. *)
Theorem average_time_per_image_correct ests :
  match average_time_per_image ests with
  | Raise ex =>
      exists e1 e2, recorded_conflict ests e1 e2 /\
                    ex = TimingValueError (scene_id e2) (im_id e2)
  | Ok avg =>
      avg = (if has_negative_time ests then Num (-1)
             else NP.mean (per_image_times ests)) /\
      (forall mAPs final,
          final_scores_of mAPs avg = Ok final ->
          Dict.get "bop24_average_time_per_image" final = Some avg) /\
      (forall X p f s final s',
          Dict.get (path_join (results_path p) f) (fs s)
          = Some (ResultsCsv ests) ->
          evaluate_result X p f s = (Ok final, s') ->
          Dict.get "bop24_average_time_per_image" final = Some avg /\
          Dict.get (final_scores_path p (result_name_of X f)) (fs s')
          = Some (FinalScoresJson final))
  end.
Proof.
  destruct (average_time_per_image ests) as [avg|ex] eqn:A;
    [|exact (average_time_raise _ _ A)].
  split; [exact (average_time_ok _ _ A)|].
  split; [intros mAPs final; apply final_scores_time|].
  intros X p f s final s' G H.
  apply evaluate_result_inv in H
    as [(_ & ex & [=])|(dataset & ests' & avg' & r1 & e1 & _ & G' & A' & _ & H)].
  rewrite G in G'. injection G' as <-. rewrite A in A'. injection A' as <-.
  destruct H as [(_ & ex & _ & [=])|(m1 & r2 & e2 & _ & _ & H)].
  destruct H as [(_ & ex & _ & [=])|(m2 & final' & _ & [= <-] & F & _ & P)].
  split; [exact (final_scores_time _ _ _ F)|exact P].
Qed.

Lemma average_time_of_demo :
  (exists avg,
      average_time_per_image Demo.ests = Ok avg /\
      avg = NP.mean (per_image_times Demo.ests) /\ (avg =~ Num (4 # 10))%np) /\
  (exists avg,
      average_time_per_image
        [ mkEstimate 1 1 (Num (1 # 2)); mkEstimate 1 2 (Num (-1));
          mkEstimate 1 1 (Num 2) ] = Ok avg /\
      avg = Num (-1) /\ avg = S754_finite true 4503599627370496 (-52)).
Proof.
  split.
  - assert (average_time_per_image Demo.ests
            = Ok (NP.mean [Num (1 # 2); Num (3 # 10)])) as A by reflexivity.
    pose proof (average_time_per_image_correct Demo.ests) as H.
    rewrite A in H. destruct H as [E _].
    eexists. split; [exact A|]. split; [exact E|]. vm_compute. reflexivity.
  - pose proof (average_time_per_image_correct
                  [ mkEstimate 1 1 (Num (1 # 2)); mkEstimate 1 2 (Num (-1));
                    mkEstimate 1 1 (Num 2) ]) as H.
    destruct (average_time_per_image
                [ mkEstimate 1 1 (Num (1 # 2)); mkEstimate 1 2 (Num (-1));
                  mkEstimate 1 1 (Num 2) ]) as [avg|ex] eqn:A;
      [|discriminate A].
    destruct H as [E _]. exists avg. split; [reflexivity|].
    split; [exact E|]. rewrite E. vm_compute. reflexivity.
Defined.

(** C3, as the claim has it, fails: an estimate has a negative time and no
    average is computed, because two earlier estimates of one image
    disagree. *)
Lemma negative_time_after_conflict_counterexample :
  has_negative_time
    [ mkEstimate 1 1 (Num 1); mkEstimate 1 1 (Num 2);
      mkEstimate 1 2 (Num (-1)) ] = true /\
  average_time_per_image
    [ mkEstimate 1 1 (Num 1); mkEstimate 1 1 (Num 2);
      mkEstimate 1 2 (Num (-1)) ] = Raise (TimingValueError 1 1) /\
  average_time_per_image
    [ mkEstimate 1 1 (Num 1); mkEstimate 1 1 (Num 2);
      mkEstimate 1 2 (Num (-1)) ] <> Ok (Num (-1)).
Proof.
  split; [reflexivity|]. split; [reflexivity|].
  assert (average_time_per_image
            [ mkEstimate 1 1 (Num 1); mkEstimate 1 1 (Num 2);
              mkEstimate 1 2 (Num (-1)) ] = Raise (TimingValueError 1 1)) as ->
      by reflexivity.
  discriminate.
Qed.

(** C4, as the script has it.  The validation raises the error for a scene
    and an image exactly when, before any estimate with a negative time, an
    estimate of that image differs by more than 1e-3 from the first estimate
    of the same image; when no two estimates of an image differ by more than
    1e-3 it ends without an error.  Two times differ by more than 1e-3 when
    the script finds them to: the double [abs(a - b)] is greater than the
    double [0.001]. *)
Theorem timing_validation_checks_first_recorded ests :
  (forall ex,
      average_time_per_image ests = Raise ex ->
      exists e1 e2, recorded_conflict ests e1 e2 /\
                    ex = TimingValueError (scene_id e2) (im_id e2)) /\
  (forall e1 e2,
      recorded_conflict ests e1 e2 ->
      exists s i, average_time_per_image ests = Raise (TimingValueError s i)) /\
  ((forall l1 e1 l2 e2 l3,
       ests = l1 ++ e1 :: l2 ++ e2 :: l3 -> same_image e1 e2 ->
       ~ differ (time e1) (time e2)) ->
   exists avg, average_time_per_image ests = Ok avg).
Proof.
  split; [intros ex; apply average_time_raise|].
  split; [intros e1 e2; apply average_time_conflict|].
  apply average_time_consistent.
Qed.

Lemma conflicting_times_raise :
  exists s i,
    average_time_per_image Examples.conflicting_times
    = Raise (TimingValueError s i).
Proof.
  apply (proj1 (proj2 (timing_validation_checks_first_recorded
                         Examples.conflicting_times))
           (mkEstimate 1 1 (Num 1)) (mkEstimate 1 1 (Num 2))).
  exists [], [], []. split; [reflexivity|]. split; [reflexivity|].
  split; [split; reflexivity|]. split; [intros x []|].
  vm_compute. reflexivity.
Defined.

(** C4, as the claim has it, fails.  Two estimates of one image differ by
    more than 1e-3 and the validation ends without an error; and the times
    0.3 and 0.301 of one image, which are 1e-3 apart, raise the error,
    because the difference of the two doubles is greater than the double
    0.001. *)
Lemma pairwise_tolerance_counterexample :
  (exists l1 e1 l2 e2 l3,
      Examples.close_times = l1 ++ e1 :: l2 ++ e2 :: l3 /\
      same_image e1 e2 /\ differ (time e1) (time e2)) /\
  average_time_per_image Examples.close_times = Ok (NP.mean [Num 1]) /\
  (Qabs ((3 # 10) - (301 # 1000)) <= 1 # 1000)%Q /\
  average_time_per_image
    [ mkEstimate 1 1 (Num (3 # 10)); mkEstimate 1 1 (Num (301 # 1000)) ]
  = Raise (TimingValueError 1 1).
Proof.
  split; [|split; [reflexivity|split; [|reflexivity]]].
  - exists [mkEstimate 1 1 (Num 1)], (mkEstimate 1 1 (Num (10009 # 10000))), [],
      (mkEstimate 1 1 (Num (9991 # 10000))), [].
    split; [reflexivity|]. split; [split; reflexivity|].
    vm_compute. reflexivity.
  - vm_compute. discriminate.
Qed.

(** C5, as the script has it.  For the empty sequence of estimates the times
    stay available and the average is the mean of an empty list, NaN. *)
Theorem empty_estimates_average_is_nan :
  times_loop [] [] = Ok (true, []) /\
  average_time_per_image [] = Ok (NP.mean []) /\
  NP.mean [] = NaN.
Proof. repeat split. Qed.

(** C5, as the claim has it, fails: the average of no estimates is not the
    sentinel -1.0. *)
Lemma empty_estimates_counterexample :
  average_time_per_image [] <> Ok unavailable.
Proof. discriminate. Qed.

(** C6, as the script has it.  A non-zero status of the error stage, or of a
    score command when the score stage runs sequentially, is the last event
    of the evaluation of the result file: the evaluation ends with a
    RuntimeError, nothing is loaded or run after the failure and no final
    scores are saved. *)
Theorem stage_failure_ends_evaluation X p f s r s' new pre c st post :
  evaluate_result X p f s = (r, s') ->
  trace s' = trace s ++ new ->
  new = pre ++ Finished c st :: post ->
  st <> 0%Z ->
  is_calc_errors c = true \/ num_workers p = 1%Z ->
  post = [] /\
  (exists msg, r = Raise (RuntimeError msg)) /\
  (forall path, ~ In (SaveJson path) new).
Proof.
  intros H T E N Fatal.
  apply evaluate_result_inv in H
    as [(T0 & _)|(dataset & ests & avg & r1 & e1 & _ & _ & _ & S1 & H)].
  { rewrite T0 in T. rewrite <- (app_nil_r (trace s)) in T at 1.
    apply app_inv_head in T. subst new. destruct pre; discriminate. }
  destruct H as [(T1 & ex & -> & ->)|(m1 & r2 & e2 & -> & S2 & H)].
  { rewrite T1 in T. apply app_inv_head in T. subst e1.
    destruct (segment_failure _ _ _ _ _ _ _ _ _ _ _ _ S1 E N Fatal)
      as (-> & msg & [= ->]).
    split; [reflexivity|]. split; [eauto|].
    intros path. eapply segment_no_save, S1. }
  assert (forall tail, new = e1 ++ tail ->
            exists mid, pre = e1 ++ mid /\ tail = mid ++ Finished c st :: post)
    as In2.
  { intros tail ->. apply split_middle in E as [(mid & E1 & _)|M]; [|exact M].
    destruct (segment_failure _ _ _ _ _ _ _ _ _ _ _ _ S1 E1 N Fatal)
      as (_ & msg & [=]). }
  destruct H as [(T2 & ex & -> & ->)|(m2 & final & -> & -> & _ & T2 & _)].
  - rewrite T2 in T. apply app_inv_head in T.
    destruct (In2 e2 (eq_sym T)) as (mid & -> & E2).
    destruct (segment_failure _ _ _ _ _ _ _ _ _ _ _ _ S2 E2 N Fatal)
      as (-> & msg & [= ->]).
    split; [reflexivity|]. split; [eauto|].
    intros path I. rewrite <- T in I. apply in_app_or in I as [I|I].
    + eapply segment_no_save; [exact S1|exact I].
    + eapply segment_no_save; [exact S2|exact I].
  - exfalso. rewrite T2 in T. apply app_inv_head in T.
    destruct (In2 _ (eq_sym T)) as (mid & -> & E2).
    apply split_middle in E2 as [(mid' & E2 & _)|(mid' & _ & E3)].
    + destruct (segment_failure _ _ _ _ _ _ _ _ _ _ _ _ S2 E2 N Fatal)
        as (_ & msg & [=]).
    + destruct mid' as [|x [|y mid']]; simpl in E3; discriminate.
Qed.

Lemma score_failure_ends_demo :
  exists msg,
    fst (evaluate_result Demo.score_failure_world Demo.sequential
           Demo.result_filename Demo.start)
    = Raise (RuntimeError msg).
Proof.
  refine (proj1 (proj2
    (stage_failure_ends_evaluation Demo.score_failure_world Demo.sequential
       Demo.result_filename Demo.start _
       (snd (evaluate_result Demo.score_failure_world Demo.sequential
               Demo.result_filename Demo.start))
       (trace (snd (evaluate_result Demo.score_failure_world Demo.sequential
                      Demo.result_filename Demo.start)))
       (firstn 5
          (trace (snd (evaluate_result Demo.score_failure_world Demo.sequential
                         Demo.result_filename Demo.start))))
       (CalcScores "method_lmo-test/error=mssd_ntop=0" "mssd" [Float (Num (1 # 10))])
       1%Z [] _ _ _ _ _))).
  - apply surjective_pairing.
  - reflexivity.
  - vm_compute. reflexivity.
  - discriminate.
  - right. reflexivity.
Defined.

(** C6, as the claim has it, fails: the error stage of the second error type
    ends with status 1 after the score files of the first error type have
    been loaded by its aggregation. *)
Lemma failure_after_aggregation_counterexample :
  fst (evaluate_result Demo.late_failure_world Demo.sequential
         Demo.result_filename Demo.start)
  = Raise (RuntimeError errors_failed_msg) /\
  exists pre c post path,
    trace (snd (evaluate_result Demo.late_failure_world Demo.sequential
                  Demo.result_filename Demo.start))
    = pre ++ Finished c 1%Z :: post /\
    is_calc_errors c = true /\
    In (LoadJson path) pre.
Proof.
  split; [vm_compute; reflexivity|].
  exists (firstn 43
            (trace (snd (evaluate_result Demo.late_failure_world Demo.sequential
                           Demo.result_filename Demo.start)))),
    (CalcErrors "eval_calc_errors.py" "method_lmo-test" "mspd" 0), [],
    "eval/method_lmo-test/error=mssd_ntop=0/scores_th=7205759403792794em57.json".
  split; [vm_compute; reflexivity|]. split; [reflexivity|].
  apply (nth_error_In _ 22). vm_compute. reflexivity.
Qed.

(** C7.  With more than one worker the score stage returns normally whatever
    the statuses of its commands: every command has finished when it
    returns, and the evaluation of the error type goes on with the
    aggregation. *)
Theorem pool_failures_are_not_raised X p :
  (1 < num_workers p)%Z ->
  (forall cmds s,
      exists s' evs,
        run_score_stage X p cmds s = (Ok tt, s') /\
        trace s' = trace s ++ evs /\
        stage_events cmds evs /\ all_finished cmds evs) /\
  (forall f name dataset error s s0,
      call X (calc_errors_cmd X p f dataset error) s = (Ok 0%Z, s0) ->
      exists s1,
        run_score_stage X p (score_cmds X name error) s0 = (Ok tt, s1) /\
        evaluate_error X p f name dataset error s
        = aggregate X p name (error_sign_of X error) error s1).
Proof.
  intros W.
  assert (forall cmds s,
      exists s' evs,
        run_score_stage X p cmds s = (Ok tt, s') /\
        trace s' = trace s ++ evs /\
        stage_events cmds evs /\ all_finished cmds evs) as Stage.
  { intros cmds s. destruct (run_score_stage X p cmds s) as [r s'] eqn:H.
    destruct (run_score_stage_inv _ _ _ _ _ _ H) as (evs & T & SE & _ & _ & P).
    destruct (P W) as [-> AF]. exists s', evs. auto. }
  split; [exact Stage|].
  intros f name dataset error s s0 C.
  destruct (Stage (score_cmds X name error) s0) as (s1 & evs & R & _).
  exists s1. split; [exact R|].
  unfold evaluate_error, bind at 1. rewrite C. cbn [negb Z.eqb].
  unfold bind at 1. fold (error_sign_of X error).
  fold (score_cmds X name error). now rewrite R.
Qed.

Lemma pool_returns_in_demo :
  exists s' evs,
    run_score_stage Demo.score_failure_world Demo.pooled
      (score_cmds Demo.score_failure_world Demo.result_filename mssd) Demo.scheduled
    = (Ok tt, s') /\
    trace s' = trace Demo.scheduled ++ evs /\
    stage_events (score_cmds Demo.score_failure_world Demo.result_filename mssd) evs /\
    all_finished (score_cmds Demo.score_failure_world Demo.result_filename mssd) evs.
Proof.
  apply (proj1 (pool_failures_are_not_raised Demo.score_failure_world Demo.pooled
                  ltac:(reflexivity))).
Defined.

(** In that run of the pool a command does end with status 1. *)
Lemma pool_demo_has_failure :
  In (Finished
        (CalcScores "method_lmo-test/error=mssd_ntop=0" "mssd"
           [Float (Num (1 # 10))]) 1%Z)
    (trace (snd (run_score_stage Demo.score_failure_world Demo.pooled
                   (score_cmds Demo.score_failure_world Demo.result_filename mssd)
                   Demo.scheduled))) /\
  fst (run_score_stage Demo.score_failure_world Demo.pooled
         (score_cmds Demo.score_failure_world Demo.result_filename mssd)
         Demo.scheduled) = Ok tt.
Proof.
  split; [|vm_compute; reflexivity].
  vm_compute. tauto.
Qed.

(** C8.  In the evaluation of a result file, a score command of an error
    type starts only after the error stage of that type has finished with
    status 0, and a score file is loaded only in the aggregation of some
    error type, after every score command of that type has finished. *)
Theorem stages_are_ordered X p f s r s' new :
  evaluate_result X p f s = (r, s') ->
  trace s' = trace s ++ new ->
  (forall pre dir t th post,
      new = pre ++ Started (CalcScores dir t th) :: post ->
      exists dataset error,
        In error errors /\ t = type error /\
        In (Finished (calc_errors_cmd X p f dataset error) 0%Z) pre) /\
  (forall pre path post,
      new = pre ++ LoadJson path :: post ->
      exists error,
        In error errors /\
        In path (score_paths X p (result_name_of X f) error) /\
        all_finished (score_cmds X (result_name_of X f) error) pre).
Proof.
  intros H T.
  assert (forall (x : event) pre post,
             (forall path, x <> SaveJson path) ->
             new = pre ++ x :: post ->
             exists dataset error r0 evs pre0 post0 before,
               In error errors /\
               segment X p f (result_name_of X f) dataset error r0 evs /\
               evs = pre0 ++ x :: post0 /\ pre = before ++ pre0) as Locate.
  { intros x pre post NS E.
    apply evaluate_result_inv in H
      as [(T0 & _)|(dataset & ests & avg & r1 & e1 & _ & _ & _ & S1 & H)].
    { rewrite T0 in T. rewrite <- (app_nil_r (trace s)) in T at 1.
      apply app_inv_head in T. subst new. destruct pre; discriminate. }
    assert (forall tail, new = e1 ++ tail ->
              (exists post0, e1 = pre ++ x :: post0) \/
              exists mid, pre = e1 ++ mid /\ tail = mid ++ x :: post) as Split.
    { intros tail ->. apply split_middle in E as [(mid & E1 & _)|M]; eauto. }
    assert (In mssd errors /\ In mspd errors) as [I1 I2]
        by (unfold errors; simpl; auto).
    destruct H as [(T1 & _)|(m1 & r2 & e2 & -> & S2 & H)].
    { rewrite T1 in T. apply app_inv_head in T. subst e1.
      exists dataset, mssd, r1, new, pre, post, []. auto. }
    destruct H as [(T2 & _)|(m2 & final & _ & _ & _ & T2 & _)];
      rewrite T2 in T; apply app_inv_head in T;
      destruct (Split _ (eq_sym T)) as [(post0 & E1)|(mid & -> & E2)].
    - exists dataset, mssd, (Ok m1), e1, pre, post0, []. auto.
    - exists dataset, mspd, r2, e2, mid, post, e1. auto.
    - exists dataset, mssd, (Ok m1), e1, pre, post0, []. auto.
    - apply split_middle in E2 as [(post0 & E2 & _)|(mid' & _ & E3)].
      + exists dataset, mspd, r2, e2, mid, post0, e1. auto.
      + destruct mid' as [|y [|z mid']]; simpl in E3; try discriminate.
        injection E3 as E3 _. exfalso. exact (NS _ (eq_sym E3)). }
  split.
  - intros pre dir t th post E.
    destruct (Locate (Started (CalcScores dir t th)) pre post
                ltac:(intros ?; discriminate) E)
      as (dataset & error & r0 & evs & pre0 & post0 & before & I & S & E0 & ->).
    destruct (segment_started _ _ _ _ _ _ _ _ _ _ _ _ _ S E0) as [F ->].
    exists dataset, error. repeat split; auto. apply in_or_app. auto.
  - intros pre path post E.
    destruct (Locate (LoadJson path) pre post
                ltac:(intros ?; discriminate) E)
      as (dataset & error & r0 & evs & pre0 & post0 & before & I & S & E0 & ->).
    destruct (segment_load _ _ _ _ _ _ _ _ _ _ _ S E0) as [P AF].
    exists error. repeat split; auto.
    intros c Ic. destruct (AF c Ic) as (st & F). exists st.
    apply in_or_app. auto.
Qed.

Lemma first_load_follows_tasks :
  exists error,
    In error errors /\
    In "eval/method_lmo-test/error=mssd_ntop=0/scores_th=7205759403792794em57.json"
      (score_paths Demo.good_world Demo.sequential
         (result_name_of Demo.good_world Demo.result_filename) error) /\
    all_finished
      (score_cmds Demo.good_world
         (result_name_of Demo.good_world Demo.result_filename) error)
      (firstn 22
         (trace (snd (evaluate_result Demo.good_world Demo.sequential
                        Demo.result_filename Demo.start)))).
Proof.
  refine (proj2
    (stages_are_ordered Demo.good_world Demo.sequential
       Demo.result_filename Demo.start _
       (snd (evaluate_result Demo.good_world Demo.sequential
               Demo.result_filename Demo.start))
       (trace (snd (evaluate_result Demo.good_world Demo.sequential
                      Demo.result_filename Demo.start))) _ _)
    _ _
    (skipn 23
       (trace (snd (evaluate_result Demo.good_world Demo.sequential
                      Demo.result_filename Demo.start)))) _).
  - apply surjective_pairing.
  - reflexivity.
  - vm_compute. reflexivity.
Defined.

(** C9.  An aggregation that yields an mAP has averaged no object that it
    recorded as ignored; with score files that give every object a count, an
    object with no instance in one threshold file and with instances in
    another makes the aggregation fail on its assertion. *)
Theorem ignored_object_is_never_averaged files :
  (forall m,
      mAP_of_files files = Ok m ->
      forall obj, In obj (ignored_objects files) ->
                  ~ In obj (averaged_objects files)) /\
  (Forall well_formed files ->
   forall f1 f2 obj s1 s2,
     In f1 files -> In (obj, s1) (scores f1) ->
     Dict.get obj (num_instances_per_object f1) = Some 0%Z ->
     In f2 files -> In (obj, s2) (scores f2) ->
     positive_count (num_instances_per_object f2) obj = true ->
     mAP_of_files files = Raise AssertionError).
Proof.
  split; [intros m H; exact (proj2 (mAP_of_files_ok _ _ H))|].
  intros W f1 f2 obj s1 s2 I1 F1 Z I2 F2 P.
  rewrite mAP_of_files_spec.
  destruct (threshold_loop_total files [] [] W) as [r ->].
  replace (existsb _ (averaged_objects files)) with true; [reflexivity|].
  symmetry. apply existsb_exists. exists obj. split.
  - apply averaged_objects_In. eauto.
  - apply is_ignored_In, ignored_objects_In. exists f1, s1.
    repeat split; auto. unfold positive_count. now rewrite Z.
Qed.

Lemma well_formed_dec_ok f :
  forallb (fun e => Dict.mem (fst e) (num_instances_per_object f)) (scores f) = true ->
  well_formed f.
Proof.
  intros H obj I. unfold Dict.keys in I. apply in_map_iff in I as (e & <- & I).
  rewrite forallb_forall in H. specialize (H e I). unfold Dict.mem in H.
  destruct (Dict.get (fst e) (num_instances_per_object f)); congruence.
Qed.

Lemma mixed_counts_assert :
  mAP_of_files Examples.mixed_counts = Raise AssertionError.
Proof.
  apply (proj2 (ignored_object_is_never_averaged Examples.mixed_counts))
    with (f1 := mkScoreFile [("A", Num (1 # 2))] [("A", 0%Z)])
         (f2 := mkScoreFile [("A", Num (7 # 10))] [("A", 4%Z)])
         (obj := "A") (s1 := Num (1 # 2)) (s2 := Num (7 # 10)).
  - repeat constructor; apply well_formed_dec_ok; reflexivity.
  - simpl. auto.
  - simpl. auto.
  - reflexivity.
  - simpl. auto.
  - simpl. auto.
  - reflexivity.
Defined.

Lemma mean_nan_right x : NP.mean [x; NaN] = NaN.
Proof. apply NPFacts.mean_nan. simpl. auto. Qed.

Lemma final_scores_of_pair m1 m2 avg :
  final_scores_of [("mssd", m1); ("mspd", m2)] avg
  = Ok [("bop24_mAP_mssd", m1); ("bop24_mAP_mspd", m2);
        ("bop24_mAP", NP.mean [m1; m2]);
        ("bop24_average_time_per_image", avg)].
Proof. reflexivity. Qed.

(** C10.  When no object of an error type has a score from a threshold file
    with a positive instance count, the aggregation raises nothing and yields
    NaN, the mean of an empty list; a NaN of either error type makes the
    combined bop24_mAP NaN, and a run that ends normally has saved it. *)
Theorem empty_average_yields_nan :
  (forall files,
      Forall well_formed files -> averaged_objects files = [] ->
      mAP_of_files files = Ok NaN) /\
  (forall X p name error s files,
      files_at X p (fs s) name error files ->
      Forall well_formed files -> averaged_objects files = [] ->
      exists s', aggregate X p name (error_sign_of X error) error s = (Ok NaN, s')) /\
  (forall m1 m2 avg,
      m1 = NaN \/ m2 = NaN ->
      exists final,
        final_scores_of [("mssd", m1); ("mspd", m2)] avg = Ok final /\
        Dict.get "bop24_mAP" final = Some NaN) /\
  (forall X p f s final s',
      evaluate_result X p f s = (Ok final, s') ->
      Dict.get (final_scores_path p (result_name_of X f)) (fs s')
      = Some (FinalScoresJson final) /\
      (Dict.get "bop24_mAP_mssd" final = Some NaN \/
       Dict.get "bop24_mAP_mspd" final = Some NaN ->
       Dict.get "bop24_mAP" final = Some NaN)).
Proof.
  assert (forall files,
             Forall well_formed files -> averaged_objects files = [] ->
             mAP_of_files files = Ok NaN) as Pure.
  { intros files W A. rewrite mAP_of_files_total; [|assumption|].
    - unfold mean_of_means. now rewrite A.
    - intros obj _. rewrite A. intros []. }
  split; [exact Pure|]. split; [|split].
  - intros X p name error s files FA W A.
    destruct (aggregate X p name (error_sign_of X error) error s) as [r s'] eqn:H.
    exists s'. f_equal.
    apply aggregate_inv in H as (_ & _ & evs & _ & _ & Spec).
    rewrite (Spec files FA). now apply Pure.
  - intros m1 m2 avg N. rewrite final_scores_of_pair. eexists.
    split; [reflexivity|]. cbn.
    destruct N as [-> | ->]; [reflexivity|].
    f_equal. apply mean_nan_right.
  - intros X p f s final s' H.
    apply evaluate_result_inv in H
      as [(_ & ex & [=])|(dataset & ests & avg & r1 & e1 & _ & _ & _ & _ & H)].
    destruct H as [(_ & ex & _ & [=])|(m1 & r2 & e2 & _ & _ & H)].
    destruct H as [(_ & ex & _ & [=])|(m2 & final' & _ & [= <-] & F & _ & P)].
    split; [exact P|]. rewrite final_scores_of_pair in F. injection F as <-.
    cbn. intros [[= ->]|[= ->]]; [reflexivity|].
    f_equal. apply mean_nan_right.
Qed.

Lemma nan_is_saved :
  fst (evaluate_result Demo.no_instances_world Demo.sequential
         Demo.result_filename Demo.start) = Ok Examples.nan_final /\
  Dict.get "bop24_mAP_mssd" Examples.nan_final = Some NaN /\
  Dict.get "bop24_mAP" Examples.nan_final = Some NaN /\
  Dict.get
    (final_scores_path Demo.sequential
       (result_name_of Demo.no_instances_world Demo.result_filename))
    (fs (snd (evaluate_result Demo.no_instances_world Demo.sequential
                Demo.result_filename Demo.start)))
  = Some (FinalScoresJson Examples.nan_final).
Proof.
  assert (fst (evaluate_result Demo.no_instances_world Demo.sequential
                 Demo.result_filename Demo.start) = Ok Examples.nan_final) as R
      by (vm_compute; reflexivity).
  assert (Dict.get "bop24_mAP_mssd" Examples.nan_final = Some NaN) as N
      by reflexivity.
  pose proof (surjective_pairing
                (evaluate_result Demo.no_instances_world Demo.sequential
                   Demo.result_filename Demo.start)) as E.
  rewrite R in E.
  destruct (proj2 (proj2 (proj2 empty_average_yields_nan))
              Demo.no_instances_world Demo.sequential Demo.result_filename
              Demo.start Examples.nan_final _ E) as [P C].
  split; [exact R|]. split; [exact N|].
  split; [exact (C (or_introl N))|exact P].
Defined.

(** * Further properties *)

(** ** Command line arguments, result names and result keys *)

Lemma split_nonempty sep s : split sep s <> [].
Proof.
  destruct s as [|a r]; simpl; [discriminate|].
  destruct (Ascii.eqb a sep); [discriminate|].
  destruct (split sep r); discriminate.
Qed.

Lemma split_head sep s :
  exists w ws, split sep s = w :: ws /\ w = before_sep sep s.
Proof.
  induction s as [|a r IH]; simpl.
  - eauto.
  - destruct (Ascii.eqb a sep); [eauto|].
    destruct IH as (w & ws & -> & ->). eauto.
Qed.

Lemma split_tail sep s :
  tl (split sep s) =
  match after_sep sep s with
  | Some r => split sep r
  | None => []
  end.
Proof.
  induction s as [|a r IH]; simpl; [reflexivity|].
  destruct (Ascii.eqb a sep); [reflexivity|].
  destruct (split sep r) as [|w ws] eqn:E.
  - now destruct (split_nonempty sep r).
  - simpl in *. exact IH.
Qed.

Lemma concat_split sep s :
  String.concat (String sep EmptyString) (split sep s) = s.
Proof.
  induction s as [|a r IH]; simpl; [reflexivity|].
  destruct (Ascii.eqb_spec a sep) as [->|N].
  - destruct (split sep r) as [|w ws] eqn:E.
    + now destruct (split_nonempty sep r).
    + simpl. simpl in IH. now rewrite IH.
  - destruct (split sep r) as [|w ws] eqn:E.
    + now destruct (split_nonempty sep r).
    + simpl in *. destruct ws; simpl in *; now rewrite IH.
Qed.

Lemma split_no_sep sep s :
  Format.contains sep s = false -> split sep s = [s].
Proof.
  induction s as [|a r IH]; simpl; [reflexivity|].
  intros H. apply orb_false_iff in H as [H1 H2].
  rewrite H1, (IH H2). reflexivity.
Qed.

Lemma split_app sep w s :
  Format.contains sep w = false ->
  split sep (w ++ String sep s)%string = w :: split sep s.
Proof.
  induction w as [|a r IH]; simpl.
  - now rewrite Ascii.eqb_refl.
  - intros H. apply orb_false_iff in H as [H1 H2].
    rewrite H1, (IH H2). reflexivity.
Qed.

Lemma split_concat sep l :
  l <> [] ->
  (forall w, In w l -> Format.contains sep w = false) ->
  split sep (String.concat (String sep EmptyString) l) = l.
Proof.
  induction l as [|w l IH]; [congruence|]. intros _ H.
  destruct l as [|w' l].
  - simpl. apply split_no_sep, H. simpl. auto.
  - change (String.concat (String sep "") (w :: w' :: l))
      with (w ++ String sep (String.concat (String sep "") (w' :: l)))%string.
    rewrite split_app by (apply H; simpl; auto).
    f_equal. apply IH; [discriminate|]. intros x I. apply H. simpl. auto.
Qed.

Lemma after_sep_none sep s :
  after_sep sep s = None <-> Format.contains sep s = false.
Proof.
  induction s as [|a r IH]; simpl; [tauto|].
  destruct (Ascii.eqb a sep); simpl; [split; discriminate|exact IH].
Qed.

Lemma before_sep_app sep w s :
  Format.contains sep w = false ->
  before_sep sep (w ++ String sep s)%string = w.
Proof.
  induction w as [|a r IH]; simpl.
  - now rewrite Ascii.eqb_refl.
  - intros H. apply orb_false_iff in H as [H1 H2]. now rewrite H1, (IH H2).
Qed.

Lemma after_sep_app sep w s :
  Format.contains sep w = false ->
  after_sep sep (w ++ String sep s)%string = Some s.
Proof.
  induction w as [|a r IH]; simpl.
  - now rewrite Ascii.eqb_refl.
  - intros H. apply orb_false_iff in H as [H1 H2]. now rewrite H1, (IH H2).
Qed.

(** X1.  Two images have the same result key only if they are the same
    image: the keys of the dict [times] never merge two images, whatever the
    sign or the number of digits of the identifiers. *)
Theorem result_key_identifies_image scene_id im_id scene_id' im_id' :
  Format.result_key scene_id im_id = Format.result_key scene_id' im_id' <->
  scene_id = scene_id' /\ im_id = im_id'.
Proof.
  split.
  - apply FormatFacts.result_key_inj.
  - intros [-> ->]. reflexivity.
Qed.

(** X2.  The model of the dataset name agrees with the expression of the
    script, [result_name.split("_")[1].split("-")[0]], and the expression
    raises IndexError exactly for a result name without an underscore. *)
Theorem dataset_of_is_the_split_expression result_name :
  dataset_of result_name = dataset_by_split result_name /\
  (dataset_of result_name = Raise IndexError <->
   Format.contains "_" result_name = false).
Proof.
  split.
  - unfold dataset_of, dataset_by_split.
    pose proof (split_tail "_" result_name) as T.
    destruct (split_head "_" result_name) as (w & ws & E & _).
    rewrite E in *. simpl in T. subst ws.
    destruct (after_sep "_" result_name) as [r|]; [|reflexivity].
    destruct (split_head "_" r) as (w1 & ws1 & -> & ->).
    destruct (split_head "-" (before_sep "_" r)) as (w2 & ws2 & -> & ->).
    reflexivity.
  - unfold dataset_of. rewrite <- after_sep_none.
    destruct (after_sep "_" result_name); split; congruence.
Qed.

(** X3.  For a result name made of a method, an underscore, a dataset, a
    hyphen and anything after it, the dataset is the part between the
    underscore and the hyphen, provided the method holds no underscore and
    the dataset neither an underscore nor a hyphen. *)
Theorem dataset_of_result_name method dataset rest :
  Format.contains "_" method = false ->
  Format.contains "_" dataset = false ->
  Format.contains "-" dataset = false ->
  dataset_of (method ++ "_" ++ dataset ++ "-" ++ rest) = Ok dataset.
Proof.
  intros Hm Hd1 Hd2. unfold dataset_of.
  change (method ++ "_" ++ dataset ++ "-" ++ rest)%string
    with (method ++ String "_" (dataset ++ String "-" rest))%string.
  rewrite after_sep_app by assumption. f_equal.
  assert (forall w s, Format.contains "_" w = false ->
            before_sep "-" (before_sep "_" (w ++ String "-" s)%string)
            = before_sep "-" (w ++ String "-" s)%string) as B.
  { induction w as [|a r IH]; intros s H; simpl.
    - reflexivity.
    - simpl in H. apply orb_false_iff in H as [H1 H2]. rewrite H1. simpl.
      destruct (Ascii.eqb a "-"); [reflexivity|]. now rewrite IH. }
  rewrite B by assumption. now apply before_sep_app.
Qed.

Lemma dataset_of_lmo :
  dataset_of ("method" ++ "_" ++ "lmo" ++ "-" ++ "test_extra") = Ok "lmo".
Proof.
  apply dataset_of_result_name; reflexivity.
Defined.

(** X4.  Splitting the argument at its commas never gives an empty list, and
    joining the parts gives the argument back. *)
Theorem result_filenames_of_arg arg :
  result_filenames_of arg <> [] /\
  result_filenames_arg (result_filenames_of arg) = arg.
Proof.
  split; [apply split_nonempty|apply concat_split].
Qed.

(** X5.  A list of result files that is not empty and whose names hold no
    comma comes back from the default of the argument as it is; the empty
    list comes back as the one file with the empty name. *)
Theorem result_filenames_round_trip :
  (forall l,
      l <> [] ->
      (forall f, In f l -> Format.contains "," f = false) ->
      result_filenames_of (result_filenames_arg l) = l) /\
  result_filenames_of (result_filenames_arg []) = [""].
Proof.
  split; [|reflexivity]. intros l N H. now apply split_concat.
Qed.

Lemma default_result_filenames_round_trip :
  result_filenames_of
    (result_filenames_arg ["/relative/path/to/csv/with/results"])
  = ["/relative/path/to/csv/with/results"].
Proof.
  apply (proj1 result_filenames_round_trip); [discriminate|].
  intros f [<-|[]]. reflexivity.
Defined.

(** ** Timing *)

Lemma times_loop_after_negative pre e post post' : forall times,
  negative_time e = true ->
  times_loop (pre ++ e :: post) times = times_loop (pre ++ e :: post') times.
Proof.
  induction pre as [|x pre IH]; intros times N; simpl.
  - unfold negative_time in N. now rewrite N.
  - destruct (NP.ltb (time x) (Num 0)); [reflexivity|].
    destruct (Dict.get (est_key x) times).
    + destruct (time_differs n (time x)); [reflexivity|]. now apply IH.
    + now apply IH.
Qed.

(** X6.  The estimates after the first one with a negative time are never
    examined: the outcome of the validation is the same whatever follows,
    inconsistent times included. *)
Theorem estimates_after_negative_time_are_ignored pre e post post' :
  negative_time e = true ->
  average_time_per_image (pre ++ e :: post)
  = average_time_per_image (pre ++ e :: post').
Proof.
  intros N. unfold average_time_per_image.
  now rewrite (times_loop_after_negative pre e post post' [] N).
Qed.

Lemma conflict_after_negative_time_is_ignored :
  average_time_per_image
    ([mkEstimate 1 1 (Num 1)] ++ mkEstimate 1 2 (Num (-1))
       :: [mkEstimate 1 1 (Num 2)])
  = average_time_per_image
      ([mkEstimate 1 1 (Num 1)] ++ mkEstimate 1 2 (Num (-1)) :: []).
Proof.
  apply estimates_after_negative_time_are_ignored. reflexivity.
Defined.

Lemma times_loop_repeated l1 e l2 t0 : forall seen times,
  represents seen times ->
  first_time (est_key e) (seen ++ l1) = Some t0 ->
  time_differs t0 (time e) = false ->
  negative_time e = false ->
  times_loop (l1 ++ e :: l2) times = times_loop (l1 ++ l2) times.
Proof.
  induction l1 as [|x l1 IH]; intros seen times R F D N; simpl.
  - rewrite app_nil_r in F. unfold negative_time in N.
    now rewrite N, R, F, D.
  - destruct (NP.ltb (time x) (Num 0)); [reflexivity|].
    replace (seen ++ x :: l1) with ((seen ++ [x]) ++ l1) in F
      by now rewrite <- app_assoc.
    destruct (Dict.get (est_key x) times) as [t|] eqn:G.
    + destruct (time_differs t (time x)); [reflexivity|].
      exact (IH _ _ (represents_skip _ _ _ _ R G) F D N).
    + exact (IH _ _ (represents_record _ _ _ R G) F D N).
Qed.

(** X7.  The average is per image, not per estimate: a further estimate of
    an image met before changes nothing, when its time is not negative and
    the script does not find it to differ by more than 1e-3 from the first
    time of that image, [abs(first - time) > 0.001] being false in doubles. *)
Theorem repeated_image_does_not_change_average before e0 between e l2 :
  same_image e0 e ->
  (forall x, In x before -> ~ same_image x e) ->
  ~ differ (time e0) (time e) ->
  negative_time e = false ->
  average_time_per_image ((before ++ e0 :: between) ++ e :: l2)
  = average_time_per_image ((before ++ e0 :: between) ++ l2).
Proof.
  intros S F D N. unfold average_time_per_image.
  rewrite (times_loop_repeated (before ++ e0 :: between) e l2 (time e0) [] []);
    auto using represents_nil.
  - simpl. apply first_time_found; [now apply est_key_eq|].
    intros x I K. apply (F x I). now apply est_key_eq.
  - destruct (time_differs (time e0) (time e)) eqn:T; [|reflexivity].
    apply time_differs_spec in T. contradiction.
Qed.

Lemma second_estimate_of_image_changes_nothing :
  average_time_per_image
    (([] ++ mkEstimate 1 1 (Num (1 # 2)) :: [mkEstimate 1 2 (Num (3 # 10))])
       ++ mkEstimate 1 1 (Num (1 # 2)) :: [])
  = average_time_per_image
      (([] ++ mkEstimate 1 1 (Num (1 # 2)) :: [mkEstimate 1 2 (Num (3 # 10))])
         ++ []).
Proof.
  apply repeated_image_does_not_change_average.
  - split; reflexivity.
  - intros x [].
  - vm_compute. discriminate.
  - reflexivity.
Defined.

Lemma per_image_times_from_In ests : forall earlier x,
  In x (per_image_times_from earlier ests) -> exists e, In e ests /\ x = time e.
Proof.
  induction ests as [|e ests IH]; intros earlier x; simpl; [tauto|].
  intros I. apply in_app_or in I as [I|I].
  - destruct (existsb (same_imageb e) earlier); [destruct I|].
    destruct I as [<-|[]]. eauto.
  - destruct (IH _ _ I) as (e' & I' & ->). eauto.
Qed.

(** X8.  The value -1.0 always means that a time was missing: when no
    estimate has a negative time, the average is NaN or a number that is at
    least 0. *)
Theorem average_of_given_times_is_not_below_zero ests avg :
  average_time_per_image ests = Ok avg ->
  has_negative_time ests = false ->
  not_below_zero avg /\ ~ (avg =~ unavailable)%np.
Proof.
  intros A N.
  assert (not_below_zero avg) as B.
  { rewrite (average_time_ok _ _ A), N. apply NPFacts.mean_not_below_zero.
    apply Forall_forall.
    intros x I. apply per_image_times_from_In in I as (e & I & ->).
    unfold not_below_zero, has_negative_time in *.
    destruct (NP.ltb (time e) (Num 0)) eqn:L; [|reflexivity].
    assert (existsb negative_time ests = true); [|congruence].
    apply existsb_exists. exists e. auto. }
  split; [exact B|]. intros E.
  assert (avg = unavailable) as ->
      by (destruct avg; try exact E; destruct E).
  discriminate B.
Qed.

Lemma average_of_demo_is_not_below_zero :
  not_below_zero (NP.mean [Num (1 # 2); Num (3 # 10)]) /\
  ~ (NP.mean [Num (1 # 2); Num (3 # 10)] =~ unavailable)%np.
Proof.
  apply (average_of_given_times_is_not_below_zero Demo.ests); reflexivity.
Defined.

Lemma per_image_times_from_first pre e post : forall earlier,
  (forall x, In x (earlier ++ pre) -> ~ same_image x e) ->
  In (time e) (per_image_times_from earlier (pre ++ e :: post)).
Proof.
  induction pre as [|x pre IH]; intros earlier F; simpl.
  - apply in_or_app. left. rewrite app_nil_r in F.
    destruct (existsb (same_imageb e) earlier) eqn:E; [|now left].
    apply existsb_exists in E as (x & I & S).
    apply same_imageb_spec in S. destruct (F x I). destruct S. now split.
  - apply in_or_app. right. apply IH. intros y I.
    apply F. rewrite <- app_assoc in I. exact I.
Qed.

(** X9.  A time that is NaN is never rejected: it is neither below zero nor
    further than the tolerance from any time.  When the first estimate of an
    image has such a time and the validation ends normally with all times
    given, the average is NaN. *)
Theorem nan_time_makes_average_nan pre e post avg :
  average_time_per_image (pre ++ e :: post) = Ok avg ->
  has_negative_time (pre ++ e :: post) = false ->
  time e = NaN ->
  (forall x, In x pre -> ~ same_image x e) ->
  avg = NaN.
Proof.
  intros A N T F. rewrite (average_time_ok _ _ A), N.
  apply NPFacts.mean_nan. rewrite <- T.
  apply per_image_times_from_first. exact F.
Qed.

Lemma nan_time_of_second_image :
  NP.mean [Num 1; NaN] = NaN.
Proof.
  apply (nan_time_makes_average_nan [mkEstimate 1 1 (Num 1)]
           (mkEstimate 1 2 NaN) [mkEstimate 1 2 (Num 5)]).
  - reflexivity.
  - reflexivity.
  - reflexivity.
  - intros x [<-|[]] [_ S]. discriminate.
Defined.

(** ** Aggregation and final scores *)

Lemma filter_counted_same f g :
  same_counted f g ->
  filter (counted f) (scores f) = filter (counted g) (scores g) /\
  filter (fun e => negb (counted f e)) (scores f)
  = filter (fun e => negb (counted g e)) (scores g).
Proof.
  intros [S C]. rewrite <- S. split; apply filter_ext_in; intros e I;
    unfold counted; rewrite (C (fst e)); try reflexivity;
    unfold Dict.keys; now apply in_map.
Qed.

Lemma positive_scores_same fs gs :
  Forall2 same_counted fs gs ->
  positive_scores fs = positive_scores gs /\
  ignored_objects fs = ignored_objects gs.
Proof.
  induction 1 as [|f g fs gs S _ [IH1 IH2]]; [split; reflexivity|].
  unfold positive_scores, ignored_objects in *. simpl.
  destruct (filter_counted_same f g S) as [-> ->]. now rewrite IH1, IH2.
Qed.

(** X11.  The instance counts matter only through being positive: two
    lists of well-formed score files with the same scores, in which the same
    objects have instances, give the same outcome. *)
Theorem mAP_depends_on_counts_by_sign files files' :
  Forall well_formed files -> Forall well_formed files' ->
  Forall2 same_counted files files' ->
  mAP_of_files files = mAP_of_files files'.
Proof.
  intros W W' S. rewrite !mAP_of_files_spec.
  destruct (threshold_loop_total files [] [] W) as [r ->].
  destruct (threshold_loop_total files' [] [] W') as [r' ->].
  unfold mean_of_means, averaged_objects.
  now destruct (positive_scores_same _ _ S) as [-> ->].
Qed.

Lemma mAP_of_two_objects_with_other_counts :
  mAP_of_files Examples.two_objects
  = mAP_of_files
      [ mkScoreFile [("A", Num (2 # 10)); ("B", Num 1)] [("A", 1%Z); ("B", 1%Z)];
        mkScoreFile [("A", Num (4 # 10)); ("B", Num 1)] [("B", 7%Z); ("A", 9%Z)];
        mkScoreFile [("A", Num (6 # 10))] [("A", 100%Z)] ].
Proof.
  apply mAP_depends_on_counts_by_sign.
  - repeat constructor; intros obj I; simpl in I;
      repeat (destruct I as [<-|I]; [discriminate|]); destruct I.
  - repeat constructor; intros obj I; simpl in I;
      repeat (destruct I as [<-|I]; [discriminate|]); destruct I.
  - repeat constructor; intros obj I; simpl in I;
      repeat (destruct I as [<-|I]; [reflexivity|]); destruct I.
Defined.

(** X12.  The scores are grouped by object as the files are read: after
    the threshold loop every object with a score from a file that counts
    instances of it holds these scores in the order of the files, the objects
    stand in the order of their first such score, and the ignored objects
    are listed once per file that counts none of their instances. *)
Theorem threshold_loop_groups_scores files d ign :
  threshold_loop files [] [] = Ok (d, ign) ->
  Dict.keys d = averaged_objects files /\
  (forall obj, In obj (averaged_objects files) ->
     Dict.get obj d = Some (scores_of_object obj (positive_scores files))) /\
  (forall obj, ~ In obj (averaged_objects files) -> Dict.get obj d = None) /\
  ign = ignored_objects files.
Proof.
  intros L. apply threshold_loop_ok in L as [-> ->].
  rewrite <- grouping_nil, fold_add_entry. simpl.
  split; [apply keys_grouping|].
  unfold grouping. fold (averaged_objects files).
  change (map (fun obj => (obj, scores_of_object obj (positive_scores files)))
            (averaged_objects files))
    with (tabulate (fun obj => scores_of_object obj (positive_scores files))
            (averaged_objects files)).
  repeat split.
  - intros obj I. rewrite get_tabulate.
    apply mentions_In in I. now rewrite I.
  - intros obj I. rewrite get_tabulate.
    destruct (mentions (averaged_objects files) obj) eqn:M; [|reflexivity].
    apply mentions_In in M. contradiction.
Qed.

Lemma grouped_scores_of_two_objects :
  Dict.get "A"
    [("A", [Num (2 # 10); Num (4 # 10); Num (6 # 10)]); ("B", [Num 1; Num 1])]
  = Some (scores_of_object "A" (positive_scores Examples.two_objects)).
Proof.
  apply (threshold_loop_groups_scores Examples.two_objects _ []).
  - reflexivity.
  - vm_compute. auto.
Defined.

(** X13.  The final scores have four entries in a fixed order, whatever
    else the per-type dict holds, and building them fails exactly when the
    mAP of an error type is missing. *)
Theorem final_scores_entries d average_time :
  final_scores_of d average_time =
  match Dict.get "mssd" d, Dict.get "mspd" d with
  | Some mssd_mAP, Some mspd_mAP =>
      Ok [ ("bop24_mAP_mssd", mssd_mAP); ("bop24_mAP_mspd", mspd_mAP);
           ("bop24_mAP", NP.mean [mssd_mAP; mspd_mAP]);
           ("bop24_average_time_per_image", average_time) ]
  | None, _ => Raise (KeyError "mssd")
  | Some _, None => Raise (KeyError "mspd")
  end.
Proof.
  unfold final_scores_of, errors, mssd, mspd, per_type_scores, lookup.
  cbn [type].
  destruct (Dict.get "mssd" d), (Dict.get "mspd" d); reflexivity.
Qed.

(** X14.  A result name without an underscore ends the evaluation of the
    file before anything is read or run: the state is left as it was. *)
Theorem name_without_underscore_stops_first X p f s :
  Format.contains "_" (result_name_of X f) = false ->
  evaluate_result X p f s = (Raise IndexError, s).
Proof.
  intros C. unfold evaluate_result, bind, lift, dataset_of.
  now rewrite (proj2 (after_sep_none _ _) C).
Qed.

Lemma name_without_underscore_in_demo :
  evaluate_result Demo.good_world Demo.sequential "results.csv" Demo.start
  = (Raise IndexError, Demo.start).
Proof.
  apply name_without_underscore_stops_first. reflexivity.
Defined.

(** X15.  The times are validated before any command runs: when the
    validation raises, the evaluation of the file ends with that error and
    the files and the trace are left as they were. *)
Theorem invalid_times_stop_before_commands X p f s dataset ests e :
  dataset_of (result_name_of X f) = Ok dataset ->
  Dict.get (path_join (results_path p) f) (fs s) = Some (ResultsCsv ests) ->
  average_time_per_image ests = Raise e ->
  evaluate_result X p f s = (Raise e, s) /\
  exists scene im, e = TimingValueError scene im.
Proof.
  intros D F A. split.
  - unfold evaluate_result, bind, lift, load_bop_results. now rewrite D, F, A.
  - unfold average_time_per_image in A.
    destruct (times_loop ests []) as [[b times]|ex] eqn:L.
    + destruct b; discriminate.
    + injection A as ->. clear F D. revert L. generalize (@nil (string * npfloat)).
      induction ests as [|x ests IH]; intros times; simpl; [discriminate|].
      destruct (NP.ltb (time x) (Num 0)); [discriminate|].
      destruct (Dict.get (est_key x) times).
      * destruct (time_differs n (time x)); [|exact (IH _)].
        intros [= <-]. exists (scene_id x), (im_id x). reflexivity.
      * exact (IH _).
Qed.

Lemma conflicting_times_stop_demo :
  evaluate_result Demo.good_world Demo.sequential Demo.result_filename
    (mkState [("results/method_lmo-test", ResultsCsv Examples.conflicting_times)]
       [] [])
  = (Raise (TimingValueError 1 1),
     mkState [("results/method_lmo-test", ResultsCsv Examples.conflicting_times)]
       [] []).
Proof.
  apply (invalid_times_stop_before_commands Demo.good_world Demo.sequential
           Demo.result_filename _ "lmo" Examples.conflicting_times);
    reflexivity.
Defined.

(** ** Stages, loads and saves *)

(** X16.  With one worker the score commands run one at a time in the
    order of the thresholds; the stage ends normally after all of them ended
    with status 0, or raises at the first command that did not, and no
    command after that one is started. *)
Theorem sequential_stage_runs_in_order X cmds : forall s r s',
  run_sequential X cmds s = (r, s') ->
  (r = Ok tt /\ trace s' = trace s ++ ran cmds) \/
  (exists done c rest st,
     cmds = done ++ c :: rest /\ st <> 0%Z /\
     r = Raise (RuntimeError scores_failed_msg) /\
     trace s' = trace s ++ ran done ++ [Started c; Finished c st]).
Proof.
  induction cmds as [|c cmds IH]; intros s r s' H; simpl in H.
  - injection H as <- <-. left. simpl. now rewrite app_nil_r.
  - apply bind_inv in H as [(e & H & _)|(st & s1 & H & K)];
      apply call_inv in H as (st' & E & T1); [discriminate|].
    injection E as <-.
    destruct (Z.eqb_spec st 0) as [->|NZ].
    + destruct (IH _ _ _ K) as [(-> & T)|(done & c' & rest & st & -> & NZ & -> & T)].
      * left. split; [reflexivity|]. rewrite T, T1, <- app_assoc. reflexivity.
      * right. exists (c :: done), c', rest, st. repeat split; auto.
        rewrite T, T1, <- app_assoc. reflexivity.
    + injection K as <- <-. right. exists [], c, cmds, st. repeat split; auto.
Qed.

Lemma sequential_stage_of_two_commands :
  (Ok tt = Ok tt /\
   trace (snd (run_sequential Demo.good_world
                 [CalcScores "d" "mssd" [Float (Num (1 # 10))];
                  CalcScores "d" "mssd" [Float (Num (1 # 5))]]
                 Demo.start))
   = trace Demo.start
     ++ ran [CalcScores "d" "mssd" [Float (Num (1 # 10))];
             CalcScores "d" "mssd" [Float (Num (1 # 5))]]) \/
  (exists done c rest st,
     [CalcScores "d" "mssd" [Float (Num (1 # 10))];
      CalcScores "d" "mssd" [Float (Num (1 # 5))]]
     = done ++ c :: rest /\ st <> 0%Z /\
     Ok tt = Raise (RuntimeError scores_failed_msg) /\
     trace (snd (run_sequential Demo.good_world
                   [CalcScores "d" "mssd" [Float (Num (1 # 10))];
                    CalcScores "d" "mssd" [Float (Num (1 # 5))]]
                   Demo.start))
     = trace Demo.start ++ ran done ++ [Started c; Finished c st]).
Proof.
  apply (sequential_stage_runs_in_order Demo.good_world
           [CalcScores "d" "mssd" [Float (Num (1 # 10))];
            CalcScores "d" "mssd" [Float (Num (1 # 5))]]
           Demo.start (Ok tt)).
  vm_compute. reflexivity.
Defined.

Lemma load_json_run path s :
  load_json path s
  = (match Dict.get path (fs s) with
     | Some f => Ok f
     | None => Raise (FileNotFoundError path)
     end,
     mkState (fs s) (trace s ++ [LoadJson path]) (sched s)).
Proof. unfold load_json. now destruct (Dict.get path (fs s)). Qed.

Lemma load_threshold_loop_loads X p name sign ths : forall d ign s r s',
  load_threshold_loop X p name sign ths d ign s = (Ok r, s') ->
  fs s' = fs s /\
  trace s' = trace s ++ loaded_twice (map (scores_path X p name sign) ths).
Proof.
  induction ths as [|th ths IH]; intros d ign s r s' H; simpl in H.
  - injection H as _ <-. simpl. now rewrite app_nil_r.
  - revert H. cbv beta delta [bind load_scores load_num_instances lift].
    rewrite load_json_run.
    destruct (Dict.get (scores_path X p name sign th) (fs s)) as [[ | c | ]|] eqn:G;
      try discriminate.
    cbn [ret]. rewrite load_json_run. cbn [fs]. rewrite G. cbn [ret].
    destruct (scan_objects _ _ d ign) as [[d' ign']|]; [|discriminate].
    intros H. apply IH in H as [F T]. cbn [fs trace] in *.
    split; [exact F|]. rewrite T, <- !app_assoc. reflexivity.
Qed.

(** X17.  An aggregation that yields a value has read every score file of
    the error type twice, once for the scores and once for the instance
    counts, in the order of the thresholds, and has changed no file. *)
Theorem aggregation_reads_each_file_twice X p name error s m s' :
  aggregate X p name (error_sign_of X error) error s = (Ok m, s') ->
  fs s' = fs s /\
  trace s' = trace s ++ loaded_twice (score_paths X p name error).
Proof.
  unfold aggregate. intros H.
  apply bind_inv in H as [(e & _ & [=])|(r & s1 & L & K)].
  apply load_threshold_loop_loads in L as [F T].
  apply bind_inv in K as [(e & _ & [=])|(a & s2 & K1 & K2)].
  unfold lift in K1. injection K2 as _ <-. injection K1 as _ <-.
  split; assumption.
Qed.

(** X18.  With fewer than one worker no result file is evaluated: the
    script runs the error command of the first error type and, when it ends
    with status 0, the pool refuses to start; no score command runs and
    nothing is loaded or saved. *)
Theorem no_worker_no_result X p f s r s' :
  (num_workers p < 1)%Z ->
  evaluate_result X p f s = (r, s') ->
  (exists e, r = Raise e) /\
  (trace s' = trace s \/
   exists dataset st,
     trace s' = trace s
       ++ [Started (calc_errors_cmd X p f dataset mssd);
           Finished (calc_errors_cmd X p f dataset mssd) st] /\
     (st = 0%Z -> r = Raise PoolValueError) /\
     (st <> 0%Z -> r = Raise (RuntimeError errors_failed_msg))).
Proof.
  intros W H. unfold evaluate_result in H.
  apply bind_inv in H as [(e & H & ->)|(dataset & s1 & H & K)].
  { unfold lift in H. injection H as _ <-. eauto. }
  unfold lift in H. injection H as _ <-.
  apply bind_inv in K as [(e & H & ->)|(ests & s1 & H & K)].
  { unfold load_bop_results in H.
    destruct (Dict.get _ (fs s)) as [[]|]; injection H as _ <-; eauto. }
  assert (s1 = s) as ->.
  { unfold load_bop_results in H.
    destruct (Dict.get _ (fs s)) as [[]|]; now injection H as _ <-. }
  apply bind_inv in K as [(e & H' & ->)|(avg & s1 & H' & K)].
  { unfold lift in H'. injection H' as _ <-. eauto. }
  unfold lift in H'. injection H' as _ <-.
  assert (exists e st,
            errors_loop X p f (result_name_of X f) dataset errors [] s
            = (Raise e, s') /\ r = Raise e /\
            trace s' = trace s
              ++ [Started (calc_errors_cmd X p f dataset mssd);
                  Finished (calc_errors_cmd X p f dataset mssd) st] /\
            (st = 0%Z -> e = PoolValueError) /\
            (st <> 0%Z -> e = RuntimeError errors_failed_msg))
    as (e & st & _ & -> & T & Z & NZ).
  { revert K. unfold errors. cbn [errors_loop].
    cbv beta delta [bind evaluate_error call run_score_stage pool_map_async_join].
    destruct (run X (calc_errors_cmd X p f dataset mssd) (fs s)) as [st fs'].
    destruct (Z.eqb_spec st 0) as [->|N]; cbn [negb].
    - destruct (Z.eqb_spec (num_workers p) 1) as [E|_]; [lia|].
      destruct (Z.ltb_spec (num_workers p) 1) as [_|G]; [|lia].
      unfold raise. intros [= <- <-]. exists PoolValueError, 0%Z.
      repeat split; auto. congruence.
    - unfold raise. intros [= <- <-].
      exists (RuntimeError errors_failed_msg), st. repeat split; auto. tauto. }
  split; [eauto|]. right. exists dataset, st.
  split; [exact T|]. split; intros; f_equal; auto.
Qed.

Lemma no_worker_in_demo :
  (exists e,
     fst (evaluate_result Demo.good_world (Demo.p 0) Demo.result_filename
            Demo.start) = Raise e) /\
  (trace (snd (evaluate_result Demo.good_world (Demo.p 0) Demo.result_filename
                 Demo.start)) = trace Demo.start \/
   exists dataset st,
     trace (snd (evaluate_result Demo.good_world (Demo.p 0)
                   Demo.result_filename Demo.start))
     = trace Demo.start
       ++ [Started (calc_errors_cmd Demo.good_world (Demo.p 0)
                      Demo.result_filename dataset mssd);
           Finished (calc_errors_cmd Demo.good_world (Demo.p 0)
                       Demo.result_filename dataset mssd) st] /\
     (st = 0%Z ->
      fst (evaluate_result Demo.good_world (Demo.p 0) Demo.result_filename
             Demo.start) = Raise PoolValueError) /\
     (st <> 0%Z ->
      fst (evaluate_result Demo.good_world (Demo.p 0) Demo.result_filename
             Demo.start) = Raise (RuntimeError errors_failed_msg))).
Proof.
  apply (no_worker_no_result Demo.good_world (Demo.p 0) Demo.result_filename
           Demo.start).
  - reflexivity.
  - apply surjective_pairing.
Defined.

Lemma aggregation_reads_demo_file_twice :
  fs (snd (aggregate Demo.good_world Demo.sequential "method_lmo-test"
             (error_sign_of Demo.good_world (mkError 0 "mspd" [[Int 5]]))
             (mkError 0 "mspd" [[Int 5]])
             (mkState
                [("eval/method_lmo-test/error=mspd_ntop=0/scores_th=5.json",
                  ScoresJson Demo.content)] [] [])))
  = [("eval/method_lmo-test/error=mspd_ntop=0/scores_th=5.json",
      ScoresJson Demo.content)] /\
  trace (snd (aggregate Demo.good_world Demo.sequential "method_lmo-test"
                (error_sign_of Demo.good_world (mkError 0 "mspd" [[Int 5]]))
                (mkError 0 "mspd" [[Int 5]])
                (mkState
                   [("eval/method_lmo-test/error=mspd_ntop=0/scores_th=5.json",
                     ScoresJson Demo.content)] [] [])))
  = [] ++ loaded_twice
            (score_paths Demo.good_world Demo.sequential "method_lmo-test"
               (mkError 0 "mspd" [[Int 5]])).
Proof.
  apply (aggregation_reads_each_file_twice Demo.good_world Demo.sequential
           "method_lmo-test" (mkError 0 "mspd" [[Int 5]])
           (mkState
              [("eval/method_lmo-test/error=mspd_ntop=0/scores_th=5.json",
                ScoresJson Demo.content)] [] [])
           (NP.mean [NP.mean [Num (1 # 2)]; NP.mean [Num 1]])).
  vm_compute. reflexivity.
Defined.






Lemma remove_nth_Permutation {A} (l : list A) : forall k x,
  nth_error l k = Some x -> Permutation l (x :: remove_nth k l).
Proof.
  induction l as [|a l IH]; intros [|k] x H; simpl in *; try discriminate.
  - injection H as ->. reflexivity.
  - rewrite (IH k x H) at 1. apply perm_swap.
Qed.

Lemma pool_steps_runs X fuel : forall workers pending running s r s',
  (1 <= workers)%nat ->
  (2 * List.length pending + List.length running <= fuel)%nat ->
  (List.length running <= workers)%nat ->
  pool_steps X fuel workers pending running s = (r, s') ->
  r = Ok tt /\
  exists evs, trace s' = trace s ++ evs /\
    Permutation (started evs) pending /\
    Permutation (finished evs) (running ++ pending) /\
    forall pre post, evs = pre ++ post ->
      (List.length running + List.length (started pre)
       <= List.length (finished pre) + workers)%nat.
Proof.
  induction fuel as [|fuel IH]; intros workers pending running s r s' W F B H.
  - destruct pending, running; simpl in F; try lia.
    simpl in H. injection H as <- <-. split; [reflexivity|].
    exists []. rewrite app_nil_r. repeat split; auto.
    intros [|] post E; [simpl; lia|discriminate].
  - cbn [pool_steps] in H.
    set (startable := if (List.length running <? workers)%nat then pending else [])
      in H.
    set (n := (List.length startable + List.length running)%nat) in H.
    destruct (Nat.eqb_spec n 0) as [Z|NZ].
    + injection H as <- <-. split; [reflexivity|].
      assert (running = []) as -> by (destruct running; simpl in *; [auto|lia]).
      assert (pending = []) as ->.
      { subst n startable. simpl in Z.
        destruct (Nat.ltb_spec 0 workers); [|lia].
        destruct pending; simpl in *; [auto|lia]. }
      exists []. rewrite app_nil_r. repeat split; auto.
      intros [|] post E; [simpl; lia|discriminate].
    + apply bind_inv in H as [(e & H & _)|(c & s1 & H & K)].
      { unfold next_choice in H. destruct (sched s); discriminate. }
      assert (trace s1 = trace s) as T1.
      { unfold next_choice in H. destruct (sched s); injection H as _ <-; reflexivity. }
      assert (c mod n < n)%nat as Hk by (apply Nat.mod_upper_bound; assumption).
      destruct (nth_error startable (c mod n)) as [cmd|] eqn:N1.
      * assert (startable = pending /\ (List.length running < workers)%nat) as [E L].
        { subst startable. destruct (Nat.ltb_spec (List.length running) workers);
            [auto|]. destruct (c mod n)%nat; discriminate. }
        rewrite E in N1.
        apply bind_inv in K as [(e & K & _)|([] & s2 & K & K2)];
          [discriminate|].
        injection K as <-.
        apply IH in K2 as (-> & evs & T & PS & PF & C); [|assumption| |].
        2:{ pose proof (remove_nth_length _ _ _ N1). rewrite length_app. simpl. lia. }
        2:{ rewrite length_app. simpl. lia. }
        split; [reflexivity|]. exists (Started cmd :: evs).
        split; [simpl in T; rewrite T, T1, <- app_assoc; reflexivity|].
        split; [simpl; rewrite PS; symmetry; now apply remove_nth_Permutation|].
        split.
        { simpl. rewrite PF, <- app_assoc. apply Permutation_app_head.
          simpl. symmetry. now apply remove_nth_Permutation. }
        intros [|ev pre] post E'; [simpl; lia|].
        injection E' as <- E'. specialize (C pre post E').
        rewrite length_app in C. simpl in *. lia.
      * assert (List.length startable <= c mod n)%nat as Ge
            by (apply nth_error_None; assumption).
        destruct (nth_error running (c mod n - List.length startable))
          as [cmd|] eqn:N2.
        2:{ apply nth_error_None in N2. subst n. lia. }
        apply bind_inv in K as [(e & K & _)|([] & s2 & K & K2)].
        { unfold finish in K. destruct (run X cmd (fs s1)); discriminate. }
        assert (exists st, trace s2 = trace s1 ++ [Finished cmd st]) as (st & T2).
        { unfold finish in K. destruct (run X cmd (fs s1)) as [st fs'].
          injection K as <-. exists st. reflexivity. }
        pose proof (remove_nth_length _ _ _ N2) as RL.
        apply IH in K2 as (-> & evs & T & PS & PF & C); [|assumption|lia|lia].
        split; [reflexivity|]. exists (Finished cmd st :: evs).
        split; [rewrite T, T2, T1, <- app_assoc; reflexivity|].
        split; [exact PS|].
        split.
        { simpl. rewrite PF. rewrite (remove_nth_Permutation _ _ _ N2) at 2.
          reflexivity. }
        intros [|ev pre] post E'; [simpl; lia|].
        injection E' as <- E'. specialize (C pre post E').
        simpl in *. lia.
Qed.

(** X20.  With more than one worker the stage hands every score command to
    the pool: each one is started once and finished once, never more than
    [num_workers] of them are running at a time, and the stage ends normally
    whatever their statuses. *)
Theorem pool_stage_runs_every_command X p cmds s r s' :
  (1 < num_workers p)%Z ->
  run_score_stage X p cmds s = (r, s') ->
  r = Ok tt /\
  exists evs, trace s' = trace s ++ evs /\
    Permutation (started evs) cmds /\
    Permutation (finished evs) cmds /\
    forall pre post, evs = pre ++ post ->
      (Z.of_nat (List.length (started pre))
       <= Z.of_nat (List.length (finished pre)) + num_workers p)%Z.
Proof.
  intros W. unfold run_score_stage, pool_map_async_join.
  destruct (Z.eqb_spec (num_workers p) 1) as [E|_]; [lia|].
  destruct (Z.ltb_spec (num_workers p) 1) as [L|_]; [lia|].
  intros H. apply pool_steps_runs in H as (-> & evs & T & PS & PF & C);
    [|lia|simpl; lia|simpl; lia].
  split; [reflexivity|]. exists evs. repeat split; auto.
  intros pre post E. specialize (C pre post E). simpl in C. lia.
Qed.

Lemma pool_stage_of_three_commands :
  Ok tt = Ok tt /\
  exists evs,
    trace (snd (run_score_stage Demo.score_failure_world Demo.pooled
                  [CalcScores "d" "mssd" [Float (Num (1 # 10))];
                   CalcScores "d" "mssd" [Float (Num (1 # 5))];
                   CalcScores "d" "mssd" [Float (Num (3 # 10))]] Demo.scheduled))
    = trace Demo.scheduled ++ evs /\
    Permutation (started evs)
      [CalcScores "d" "mssd" [Float (Num (1 # 10))];
       CalcScores "d" "mssd" [Float (Num (1 # 5))];
       CalcScores "d" "mssd" [Float (Num (3 # 10))]] /\
    Permutation (finished evs)
      [CalcScores "d" "mssd" [Float (Num (1 # 10))];
       CalcScores "d" "mssd" [Float (Num (1 # 5))];
       CalcScores "d" "mssd" [Float (Num (3 # 10))]] /\
    forall pre post, evs = pre ++ post ->
      (Z.of_nat (List.length (started pre))
       <= Z.of_nat (List.length (finished pre)) + num_workers Demo.pooled)%Z.
Proof.
  apply (pool_stage_runs_every_command Demo.score_failure_world Demo.pooled
           [CalcScores "d" "mssd" [Float (Num (1 # 10))];
            CalcScores "d" "mssd" [Float (Num (1 # 5))];
            CalcScores "d" "mssd" [Float (Num (3 # 10))]] Demo.scheduled (Ok tt)).
  - reflexivity.
  - vm_compute. reflexivity.
Defined.

Lemma call_fs X c s r s' :
  call X c s = (r, s') -> fs s' = snd (run X c (fs s)).
Proof.
  unfold call. destruct (run X c (fs s)) as [st fs']. now intros [= <- <-].
Qed.

Lemma run_sequential_fs X cmds : forall s r s',
  writes_nothing X -> run_sequential X cmds s = (r, s') -> fs s' = fs s.
Proof.
  induction cmds as [|c cmds IH]; intros s r s' W H; simpl in H.
  - now injection H as <- <-.
  - apply bind_inv in H as [(e & H & _)|(st & s1 & H & K)];
      apply call_fs in H; rewrite W in H; [exact H|].
    destruct (st =? 0)%Z.
    + rewrite <- H. now apply (IH _ _ _ W K).
    + now injection K as <- <-.
Qed.

Lemma pool_steps_fs X fuel : forall workers pending running s r s',
  writes_nothing X ->
  pool_steps X fuel workers pending running s = (r, s') -> fs s' = fs s.
Proof.
  induction fuel as [|fuel IH]; intros workers pending running s r s' W H.
  - now injection H as <- <-.
  - cbn [pool_steps] in H.
    set (startable := if (List.length running <? workers)%nat then pending else [])
      in H.
    set (n := (List.length startable + List.length running)%nat) in H.
    destruct (n =? 0)%nat; [now injection H as <- <-|].
    apply bind_inv in H as [(e & H & _)|(c & s1 & H & K)].
    { unfold next_choice in H. destruct (sched s); discriminate. }
    assert (fs s1 = fs s) as F1.
    { unfold next_choice in H. destruct (sched s); now injection H as _ <-. }
    destruct (nth_error startable (c mod n)) as [cmd|].
    + apply bind_inv in K as [(e & K & _)|([] & s2 & K & K2)]; [discriminate|].
      injection K as <-. apply IH in K2; [|exact W]. now rewrite K2.
    + destruct (nth_error running (c mod n - List.length startable)) as [cmd|].
      * apply bind_inv in K as [(e & K & _)|([] & s2 & K & K2)].
        { unfold finish in K. destruct (run X cmd (fs s1)); discriminate. }
        assert (fs s2 = fs s1) as F2.
        { unfold finish in K. pose proof (W cmd (fs s1)) as E.
          destruct (run X cmd (fs s1)) as [st fs']. injection K as <-.
          exact E. }
        apply IH in K2; [|exact W]. now rewrite K2, F2.
      * injection K as _ <-. exact F1.
Qed.

Lemma evaluate_error_fs X p f name dataset error s r s' :
  writes_nothing X ->
  evaluate_error X p f name dataset error s = (r, s') -> fs s' = fs s.
Proof.
  intros W H. unfold evaluate_error in H.
  apply bind_inv in H as [(e & H & _)|(st & s1 & H & K)];
    apply call_fs in H; rewrite W in H; [exact H|].
  rewrite <- H. destruct (negb (st =? 0)%Z); [now injection K as _ <-|].
  assert (forall cmds s2 r2,
            run_score_stage X p cmds s1 = (r2, s2) -> fs s2 = fs s1) as Stage.
  { intros cmds s2 r2. unfold run_score_stage, pool_map_async_join.
    destruct (num_workers p =? 1)%Z; [now apply run_sequential_fs|].
    destruct (num_workers p <? 1)%Z; [now intros [= _ <-]|].
    now apply pool_steps_fs. }
  apply bind_inv in K as [(e & K & _)|([] & s2 & K & K2)].
  - exact (Stage _ _ _ K).
  - apply Stage in K. rewrite <- K.
    now apply (aggregate_inv X p name error) in K2 as [F _].
Qed.

Lemma errors_loop_fs X p f name dataset errs : forall d s r s',
  writes_nothing X ->
  errors_loop X p f name dataset errs d s = (r, s') -> fs s' = fs s.
Proof.
  induction errs as [|error errs IH]; intros d s r s' W H; simpl in H.
  - now injection H as _ <-.
  - apply bind_inv in H as [(e & H & _)|(m & s1 & H & K)];
      apply evaluate_error_fs in H; try exact W; [exact H|].
    rewrite <- H. exact (IH _ _ _ _ W K).
Qed.

(** X21.  The script itself writes one file per result: when no command
    writes a file, the files after the evaluation of a result are those
    before it with the final scores added at their path, and those before it
    when the evaluation raises. *)
Theorem script_writes_only_final_scores X p f s r s' :
  writes_nothing X ->
  evaluate_result X p f s = (r, s') ->
  fs s' = match r with
          | Ok final_scores =>
              Dict.set (final_scores_path p (result_name_of X f))
                (FinalScoresJson final_scores) (fs s)
          | Raise _ => fs s
          end.
Proof.
  intros W H. unfold evaluate_result in H.
  apply bind_inv in H as [(e & H & ->)|(dataset & s1 & H & K)];
    unfold lift in H; injection H as _ <-; [reflexivity|].
  apply bind_inv in K as [(e & H & ->)|(ests & s1 & H & K)].
  { unfold load_bop_results in H.
    destruct (Dict.get _ (fs s)) as [[]|]; now injection H as _ <-. }
  assert (s1 = s) as ->.
  { unfold load_bop_results in H.
    destruct (Dict.get _ (fs s)) as [[]|]; now injection H as _ <-. }
  apply bind_inv in K as [(e & H' & ->)|(avg & s1 & H' & K)];
    unfold lift in H'; injection H' as _ <-; [reflexivity|].
  apply bind_inv in K as [(e & L & ->)|(d & s1 & L & K)];
    apply errors_loop_fs in L; try exact W; [exact L|].
  apply bind_inv in K as [(e & H' & ->)|(final & s2 & H' & K)];
    unfold lift in H'; injection H' as _ <-; [exact L|].
  unfold bind, save_json, ret in K. injection K as <- <-.
  cbn [fs]. now rewrite L.
Qed.

Lemma prepared_world_gets_final_scores :
  fs (snd (evaluate_result Quiet.world Demo.sequential Demo.result_filename
             Quiet.prepared))
  = Dict.set (final_scores_path Demo.sequential
                (result_name_of Quiet.world Demo.result_filename))
      (FinalScoresJson Quiet.final) (fs Quiet.prepared).
Proof.
  assert (fst (evaluate_result Quiet.world Demo.sequential Demo.result_filename
                 Quiet.prepared) = Ok Quiet.final) as R
    by (vm_compute; reflexivity).
  pose proof (surjective_pairing
                (evaluate_result Quiet.world Demo.sequential
                   Demo.result_filename Quiet.prepared)) as E.
  rewrite R in E.
  exact (script_writes_only_final_scores Quiet.world Demo.sequential
           Demo.result_filename Quiet.prepared (Ok Quiet.final) _
           (fun c fsys => eq_refl) E).
Defined.
